(** * GalleryBoard dashboard (src/pages/Dashboard.tsx)

    A shallow embedding of the dashboard component: its React state, the
    asynchronous handlers [uploadImage], [handleCreatePost] and
    [handleDeletePost], the feed subscription set up by [useEffect], and the
    event loop that interleaves them. *)

From Stdlib Require Import NArith ZArith Ascii String Decimal DecimalN.
From stdpp Require Import base option list gmap.

Local Open Scope N_scope.

(** ** JavaScript strings

    A JS string is a sequence of UTF-16 code units. *)

Abbreviation code_unit := N (only parsing).
Abbreviation jsstring := (list N) (only parsing).

(** ASCII literals of the source, as code units. *)
Definition js (s : string) : jsstring :=
  List.map N_of_ascii (list_ascii_of_string s).

(** ECMAScript [WhiteSpace] and [LineTerminator] code points, the set that
    [String.prototype.trim] strips. *)
Definition is_white_space (c : code_unit) : bool :=
  (c =? 0x09) || (c =? 0x0A) || (c =? 0x0B) || (c =? 0x0C) || (c =? 0x0D)
  || (c =? 0x20) || (c =? 0xA0) || (c =? 0x1680)
  || ((0x2000 <=? c) && (c <=? 0x200A))
  || (c =? 0x2028) || (c =? 0x2029) || (c =? 0x202F) || (c =? 0x205F)
  || (c =? 0x3000) || (c =? 0xFEFF).

Fixpoint trimStart (s : jsstring) : jsstring :=
  match s with
  | c :: s' => if is_white_space c then trimStart s' else s
  | [] => []
  end.

Definition trimEnd (s : jsstring) : jsstring := rev (trimStart (rev s)).

Definition trim (s : jsstring) : jsstring := trimEnd (trimStart s).

(** Truthiness of a string: [!s] holds exactly for the empty string. *)
Definition falsy (s : jsstring) : bool :=
  match s with [] => true | _ => false end.

(** Truthiness of a nullable object: [!o] holds exactly for [null]. *)
Definition is_null {A} (o : option A) : bool :=
  match o with None => true | Some _ => false end.

(** [`${n}`] for a non-negative integer below 1e21: its decimal digits. *)
Fixpoint digits (d : Decimal.uint) : jsstring :=
  match d with
  | Nil => []
  | D0 d => 48 :: digits d | D1 d => 49 :: digits d | D2 d => 50 :: digits d
  | D3 d => 51 :: digits d | D4 d => 52 :: digits d | D5 d => 53 :: digits d
  | D6 d => 54 :: digits d | D7 d => 55 :: digits d | D8 d => 56 :: digits d
  | D9 d => 57 :: digits d
  end.

Definition number_to_string (n : N) : jsstring := digits (N.to_uint n).

(** ** Values of the environment *)

(** The authenticated user of [useAuth()]: [uid] and the nullable [email]. *)
Record User := { uid : jsstring; email : option jsstring }.

(** A [File] picked by the user; only its name and size are read. *)
Record File := { name : jsstring; size : N }.

(** What a promise is rejected with. The code only reads [.code]: a
    Firebase error carries one, a bare string ([reject("No user
    authenticated")]) has none. *)
Inductive JsError :=
| ErrString (message : jsstring)
| FirebaseError (code : jsstring).

Definition error_code (e : JsError) : option jsstring :=
  match e with
  | ErrString _ => None
  | FirebaseError c => Some c
  end.

(** Firestore [Timestamp]: seconds and nanoseconds, compared in that order. *)
Record Timestamp := { seconds : Z; nanoseconds : Z }.

(** A field value as [doc.data()] returns it. *)
Inductive JsValue :=
| VNull
| VString (s : jsstring)
| VTimestamp (t : Timestamp).

#[global] Instance Timestamp_eq_dec : EqDecision Timestamp.
Proof. solve_decision. Defined.

#[global] Instance JsValue_eq_dec : EqDecision JsValue.
Proof. solve_decision. Defined.

(** A JS object used as a record of named fields. *)
Abbreviation JsObject := (gmap (list N) JsValue) (only parsing).

(** A [QueryDocumentSnapshot]: [doc.id] and [doc.data()]. *)
Record QueryDocumentSnapshot := { doc_id : jsstring; doc_data : JsObject }.

(** [interface Post] is erased at run time: a post is the object built by
    the snapshot callback. *)
Abbreviation Post := (gmap (list N) JsValue) (only parsing).

(** [uploadProgress] is a JS number. The component only ever stores the
    literal [0] or the double [(bytesTransferred / totalBytes) * 100]; the
    latter is kept as the two integers it is computed from. *)
Inductive Progress :=
| Zero
| Percent (bytesTransferred totalBytes : N).

(** The sentinel returned by [serverTimestamp()]. *)
Inductive FieldValue := ServerTimestamp.

(** The object literal handed to [addDoc]. *)
Module PostData.
Record t := {
  title : jsstring;
  content : jsstring;
  imageUrl : jsstring;
  authorId : jsstring;
  authorEmail : jsstring;
  createdAt : FieldValue
}.
End PostData.

(** ** Component state: one field per [useState] *)

Record State := {
  posts : list Post;
  title : jsstring;
  content : jsstring;
  featuredImage : option File;
  imagePreview : option jsstring;
  isSubmitting : bool;
  uploadProgress : Progress;
  isInitialLoading : bool;
  permissionError : option jsstring
}.

Definition initial_state : State :=
  {| posts := []; title := []; content := []; featuredImage := None;
     imagePreview := None; isSubmitting := false; uploadProgress := Zero;
     isInitialLoading := true; permissionError := None |}.

Definition setPosts (v : list Post) (s : State) : State :=
  {| posts := v; title := title s; content := content s;
     featuredImage := featuredImage s; imagePreview := imagePreview s;
     isSubmitting := isSubmitting s; uploadProgress := uploadProgress s;
     isInitialLoading := isInitialLoading s;
     permissionError := permissionError s |}.

Definition setTitle (v : jsstring) (s : State) : State :=
  {| posts := posts s; title := v; content := content s;
     featuredImage := featuredImage s; imagePreview := imagePreview s;
     isSubmitting := isSubmitting s; uploadProgress := uploadProgress s;
     isInitialLoading := isInitialLoading s;
     permissionError := permissionError s |}.

Definition setContent (v : jsstring) (s : State) : State :=
  {| posts := posts s; title := title s; content := v;
     featuredImage := featuredImage s; imagePreview := imagePreview s;
     isSubmitting := isSubmitting s; uploadProgress := uploadProgress s;
     isInitialLoading := isInitialLoading s;
     permissionError := permissionError s |}.

Definition setFeaturedImage (v : option File) (s : State) : State :=
  {| posts := posts s; title := title s; content := content s;
     featuredImage := v; imagePreview := imagePreview s;
     isSubmitting := isSubmitting s; uploadProgress := uploadProgress s;
     isInitialLoading := isInitialLoading s;
     permissionError := permissionError s |}.

Definition setImagePreview (v : option jsstring) (s : State) : State :=
  {| posts := posts s; title := title s; content := content s;
     featuredImage := featuredImage s; imagePreview := v;
     isSubmitting := isSubmitting s; uploadProgress := uploadProgress s;
     isInitialLoading := isInitialLoading s;
     permissionError := permissionError s |}.

Definition setIsSubmitting (v : bool) (s : State) : State :=
  {| posts := posts s; title := title s; content := content s;
     featuredImage := featuredImage s; imagePreview := imagePreview s;
     isSubmitting := v; uploadProgress := uploadProgress s;
     isInitialLoading := isInitialLoading s;
     permissionError := permissionError s |}.

Definition setUploadProgress (v : Progress) (s : State) : State :=
  {| posts := posts s; title := title s; content := content s;
     featuredImage := featuredImage s; imagePreview := imagePreview s;
     isSubmitting := isSubmitting s; uploadProgress := v;
     isInitialLoading := isInitialLoading s;
     permissionError := permissionError s |}.

Definition setIsInitialLoading (v : bool) (s : State) : State :=
  {| posts := posts s; title := title s; content := content s;
     featuredImage := featuredImage s; imagePreview := imagePreview s;
     isSubmitting := isSubmitting s; uploadProgress := uploadProgress s;
     isInitialLoading := v;
     permissionError := permissionError s |}.

Definition setPermissionError (v : option jsstring) (s : State) : State :=
  {| posts := posts s; title := title s; content := content s;
     featuredImage := featuredImage s; imagePreview := imagePreview s;
     isSubmitting := isSubmitting s; uploadProgress := uploadProgress s;
     isInitialLoading := isInitialLoading s;
     permissionError := v |}.

(** ** Effects

    Synchronous effects of a handler: the state setters, what the user or
    the console sees, and the image the editor is told to embed. *)
Inductive Action :=
| SetPosts (v : list Post)
| SetTitle (v : jsstring)
| SetContent (v : jsstring)
| SetFeaturedImage (v : option File)
| SetImagePreview (v : option jsstring)
| SetIsSubmitting (v : bool)
| SetUploadProgress (v : Progress)
| SetIsInitialLoading (v : bool)
| SetPermissionError (v : option jsstring)
| PreventDefault
| ConsoleError (label : jsstring) (e : JsError)
| Alert (message : jsstring)
| InsertEmbed (index : N) (url : jsstring).

(** The component state after a synchronous effect. Only the state setters
    change it. [InsertEmbed] is the call into the editor and writes no
    state of the component by itself: the editor is controlled
    ([value={content} onChange={setContent}]), so the markup it holds after
    an embed comes back through its own [onChange], which the event loop
    has as the [ContentInput] event. *)
Definition apply_action (a : Action) (s : State) : State :=
  match a with
  | SetPosts v => setPosts v s
  | SetTitle v => setTitle v s
  | SetContent v => setContent v s
  | SetFeaturedImage v => setFeaturedImage v s
  | SetImagePreview v => setImagePreview v s
  | SetIsSubmitting v => setIsSubmitting v s
  | SetUploadProgress v => setUploadProgress v s
  | SetIsInitialLoading v => setIsInitialLoading v s
  | SetPermissionError v => setPermissionError v s
  | PreventDefault | ConsoleError _ _ | Alert _ | InsertEmbed _ _ => s
  end.

(** Synchronous calls into the browser: they always return. *)
Inductive Question :=
| DateNow
| WindowConfirm (message : jsstring)
| EditorSelection.

(** [EditorSelection] is [quillRef.current?.getEditor()] followed by
    [getSelection()]: no editor, or an editor with a possibly null range,
    of which only the index is read. *)
Definition Reply (q : Question) : Type :=
  match q with
  | DateNow => N
  | WindowConfirm _ => bool
  | EditorSelection => option (option N)
  end.

(** How a promise of the backend settles. *)
Inductive Settled (A : Type) :=
| Resolved (a : A)
| RejectedWith (e : JsError).
Arguments Resolved {A} a.
Arguments RejectedWith {A} e.

(** One resumable upload, as the three observers of [uploadTask.on] see it:
    the progress snapshots in order, then either the error or completion. *)
Record UploadRun := {
  ticks : list (N * N);
  failure : option JsError
}.

(** Asynchronous requests to Firebase. *)
Inductive Request :=
| UploadBytesResumable (path : jsstring) (file : File)
| GetDownloadURL (path : jsstring)
| AddDoc (collection : jsstring) (data : PostData.t)
| DeleteDoc (collection : jsstring) (id : jsstring).

Definition Response (c : Request) : Type :=
  match c with
  | UploadBytesResumable _ _ => UploadRun
  | GetDownloadURL _ => Settled jsstring
  | AddDoc _ _ => Settled unit
  | DeleteDoc _ _ => Settled unit
  end.

(** ** Asynchronous computations

    The body of an [async] function (or of a promise executor) as a tree:
    it returns, throws, never settles, performs a synchronous effect, asks
    the browser, or awaits a request. *)
Inductive Async (A : Type) : Type :=
| Ret (a : A)
| Throw (e : JsError)
| Never
| Do (a : Action) (k : Async A)
| Ask (q : Question) (k : Reply q -> Async A)
| Await (c : Request) (k : Response c -> Async A).
Arguments Ret {A} a.
Arguments Throw {A} e.
Arguments Never {A}.
Arguments Do {A} a k.
Arguments Ask {A} q k.
Arguments Await {A} c k.

Fixpoint bind {A B} (m : Async A) (f : A -> Async B) : Async B :=
  match m with
  | Ret a => f a
  | Throw e => Throw e
  | Never => Never
  | Do a k => Do a (bind k f)
  | Ask q k => Ask q (fun r => bind (k r) f)
  | Await c k => Await c (fun r => bind (k r) f)
  end.

(** [try { m } catch (err) { h err }] *)
Fixpoint try_catch {A} (m : Async A) (h : JsError -> Async A) : Async A :=
  match m with
  | Ret a => Ret a
  | Throw e => h e
  | Never => Never
  | Do a k => Do a (try_catch k h)
  | Ask q k => Ask q (fun r => try_catch (k r) h)
  | Await c k => Await c (fun r => try_catch (k r) h)
  end.

(** [try { m } finally { fin }]: [fin] runs on both exits, then the exit of
    [m] is resumed. *)
Fixpoint finally {A} (m : Async A) (fin : Async unit) : Async A :=
  match m with
  | Ret a => bind fin (fun _ => Ret a)
  | Throw e => bind fin (fun _ => Throw e)
  | Never => Never
  | Do a k => Do a (finally k fin)
  | Ask q k => Ask q (fun r => finally (k r) fin)
  | Await c k => Await c (fun r => finally (k r) fin)
  end.

Notation "x <- m ;; k" := (bind m (fun x => k))
  (at level 90, m at level 80, right associativity).
Notation "a ;;; k" := (Do a k)
  (at level 90, right associativity).

(** ** The handlers *)

(** [snapshot => setUploadProgress((bytesTransferred / totalBytes) * 100)],
    once per progress snapshot. *)
Fixpoint report_progress {A} (snapshots : list (N * N)) (k : Async A) : Async A :=
  match snapshots with
  | [] => k
  | (b, t) :: rest => SetUploadProgress (Percent b t) ;;; report_progress rest k
  end.

Definition storage_path (u : User) (now : N) (file : File) : jsstring :=
  js "posts/" ++ uid u ++ js "/" ++ number_to_string now ++ js "_" ++ name file.

(** [uploadImage]: rejects at once without a user; otherwise starts the
    upload, forwards progress, rejects with the task's error, and on
    completion resolves with the download URL. When [getDownloadURL]
    rejects inside the completion observer nothing settles the promise. *)
Definition uploadImage (user : option User) (file : File) : Async jsstring :=
  match user with
  | None => Throw (ErrString (js "No user authenticated"))
  | Some u =>
      Ask DateNow (fun now =>
      let path := storage_path u now file in
      Await (UploadBytesResumable path file) (fun task =>
      report_progress (ticks task)
        match failure task with
        | Some error => Throw error
        | None =>
            Await (GetDownloadURL path) (fun r =>
            match r with
            | Resolved downloadURL => Ret downloadURL
            | RejectedWith _ => Never
            end)
        end))
  end.

Definition EMPTY_DOCUMENT : jsstring := js "<p><br></p>".

(** [user.email || 'Anonymous'] *)
Definition author_email (u : User) : jsstring :=
  match email u with
  | Some (c :: s) => c :: s
  | Some [] | None => js "Anonymous"
  end.

Definition is_permission_denied (err : JsError) : bool :=
  bool_decide (error_code err = Some (js "permission-denied")).

(** [handleCreatePost], closed over the [title], [content],
    [featuredImage] and [user] of the render that installed it. *)
Definition handleCreatePost (user : option User) (title content : jsstring)
    (featuredImage : option File) : Async unit :=
  PreventDefault ;;;
  let isContentEmpty := falsy content || bool_decide (content = EMPTY_DOCUMENT) in
  if falsy (trim title) || isContentEmpty || is_null user then Ret tt else
  match user with
  | None => Ret tt
  | Some u =>
      SetIsSubmitting true ;;;
      SetPermissionError None ;;;
      finally
        (try_catch
           (imageUrl <- match featuredImage with
                        | Some file => uploadImage user file
                        | None => Ret []
                        end ;;
            _ <- Await (AddDoc (js "posts")
                          {| PostData.title := trim title;
                             PostData.content := content;
                             PostData.imageUrl := imageUrl;
                             PostData.authorId := uid u;
                             PostData.authorEmail := author_email u;
                             PostData.createdAt := ServerTimestamp |})
                       (fun r => match r with
                                 | Resolved _ => Ret tt
                                 | RejectedWith e => Throw e
                                 end) ;;
            SetTitle [] ;;;
            SetContent [] ;;;
            SetFeaturedImage None ;;;
            SetImagePreview None ;;;
            SetUploadProgress Zero ;;;
            Ret tt)
           (fun err =>
              ConsoleError (js "Error creating post:") err ;;;
              if is_permission_denied err
              then SetPermissionError
                     (Some (js "Write Denied: Check Firestore and Storage rules.")) ;;;
                   Ret tt
              else Alert (js "Failed to save post. Please try again.") ;;;
                   Ret tt))
        (SetIsSubmitting false ;;; Ret tt)
  end.

(** The [onchange] handler that [imageHandler] installs on its file input,
    for a chosen file. *)
Definition imageHandler_onchange (user : option User) (file : File) : Async unit :=
  try_catch
    (url <- uploadImage user file ;;
     Ask EditorSelection (fun quill =>
       match quill with
       | Some range =>
           InsertEmbed (default 0 range) url ;;;
           SetUploadProgress Zero ;;;
           Ret tt
       | None => Ret tt
       end))
    (fun err =>
       ConsoleError (js "Quill image upload failed:") err ;;;
       Alert (js "Failed to upload image to editor.") ;;;
       Ret tt).

(** [handleDeletePost] *)
Definition handleDeletePost (postId : jsstring) : Async unit :=
  Ask (WindowConfirm (js "Are you sure you want to delete this post?"))
    (fun confirmed : bool =>
     if negb confirmed then Ret tt else
     try_catch
       (Await (DeleteDoc (js "posts") postId)
          (fun r => match r with
                    | Resolved _ => Ret tt
                    | RejectedWith e => Throw e
                    end))
       (fun err =>
          ConsoleError (js "Delete failed:") err ;;;
          Alert (js "Permission Denied: You can only delete your own posts.") ;;;
          Ret tt)).

(** ** The feed subscription ([useEffect], lines 122-146) *)

Inductive Direction := Asc | Desc.

(** [query(collection(db, path), orderBy(field, direction))] *)
Record Query := {
  collection_path : jsstring;
  order_field : jsstring;
  order_direction : Direction
}.

Definition feedQuery : Query :=
  {| collection_path := js "posts";
     order_field := js "createdAt";
     order_direction := Desc |}.

(** [{ id: doc.id, ...doc.data() }]: the spread comes second, so a field of
    the data named [id] wins over [doc.id] (the union keeps its left
    operand's binding). *)
Definition toPost (doc : QueryDocumentSnapshot) : Post :=
  doc_data doc ∪ {[ js "id" := VString (doc_id doc) ]}.

(** The [next] observer of [onSnapshot]. *)
Definition onNext (docs : list QueryDocumentSnapshot) : Async unit :=
  SetPosts (toPost <$> docs) ;;;
  SetIsInitialLoading false ;;;
  Ret tt.

(** The [error] observer of [onSnapshot]. *)
Definition onError (error : JsError) : Async unit :=
  ConsoleError (js "Firestore Error:") error ;;;
  if is_permission_denied error
  then SetPermissionError (Some (js "Access Denied: Check your Firestore rules.")) ;;;
       SetIsInitialLoading false ;;;
       Ret tt
  else SetIsInitialLoading false ;;;
       Ret tt.

(** The dependency array of the effect: [[]]. *)
Definition feed_effect_deps (user : option User) (s : State) : list JsValue := [].

(** *** Feed order

    Modelled from the spec: the order of the standing query is computed by
    the document store, outside this repository. By sections 3 and 6 of the
    specification it is "createdAt descending, not yet committed (null)
    first": [a] may stand before [b] when [a] is null, or when both are
    timestamps and [a]'s is not the older one. *)
Definition timestamp_leb (a b : Timestamp) : bool :=
  ((seconds a <? seconds b) || ((seconds a =? seconds b) && (nanoseconds a <=? nanoseconds b)))%Z.

Definition newest_first (a b : option JsValue) : bool :=
  match a, b with
  | Some VNull, _ => true
  | Some (VTimestamp ta), Some (VTimestamp tb) => timestamp_leb tb ta
  | _, _ => false
  end.

Definition field_order (d : Direction) (a b : option JsValue) : bool :=
  match d with
  | Desc => newest_first a b
  | Asc => newest_first b a
  end.

(** A result set is in the order of query [q] when every document stands
    before all later ones in the order of [q]'s field. *)
Fixpoint in_query_order (q : Query) (docs : list QueryDocumentSnapshot) : bool :=
  match docs with
  | [] => true
  | d :: rest =>
      forallb (fun d' => field_order (order_direction q)
                           (doc_data d !! order_field q)
                           (doc_data d' !! order_field q)) rest
      && in_query_order q rest
  end.

(** [post.createdAt] *)
Definition createdAt (p : Post) : option JsValue := p !! js "createdAt".

(** The delivered sequence is sorted by [createdAt] descending, nulls
    first. *)
Fixpoint feed_sorted (ps : list Post) : bool :=
  match ps with
  | [] => true
  | p :: rest =>
      forallb (fun p' => newest_first (createdAt p) (createdAt p')) rest
      && feed_sorted rest
  end.

(** The handler a render of state [s] installs on the form: its closure
    holds the [title], [content] and [featuredImage] of that render. *)
Definition onSubmit (user : option User) (s : State) : Async unit :=
  handleCreatePost user (title s) (content s) (featuredImage s).

(** ** Running a handler against the environment

    A world answers the synchronous questions and settles (or leaves
    pending) the requests; the index is the number of interactions made so
    far, so that the same request can be answered differently over time. *)
Record World := {
  reply : nat -> forall q : Question, Reply q;
  settle : nat -> forall c : Request, option (Response c)
}.

(** What an observer sees of a run, in order. *)
Inductive Obs :=
| Did (a : Action)
| Asked (q : Question) (r : Reply q)
| Requested (c : Request)
| Answered (c : Request) (r : Response c)
| Subscribed (q : Query) (handle : nat)
| Unsubscribed (handle : nat).

Inductive Outcome (A : Type) :=
| Fulfilled (a : A)
| Rejected (e : JsError)
| Pending.
Arguments Fulfilled {A} a.
Arguments Rejected {A} e.
Arguments Pending {A}.

Record Result (A : Type) := {
  outcome : Outcome A;
  final : State;
  log : list Obs;
  next : nat
}.
Arguments outcome {A} r.
Arguments final {A} r.
Arguments log {A} r.
Arguments next {A} r.

Definition logged {A} (l : list Obs) (r : Result A) : Result A :=
  {| outcome := outcome r; final := final r; log := l ++ log r; next := next r |}.

(** A handler run to the end with no other event interleaved: every
    settled request resumes it at once, an unsettled one leaves it pending. *)
Fixpoint run {A} (w : World) (n : nat) (m : Async A) (s : State) : Result A :=
  match m with
  | Ret a => {| outcome := Fulfilled a; final := s; log := []; next := n |}
  | Throw e => {| outcome := Rejected e; final := s; log := []; next := n |}
  | Never => {| outcome := Pending; final := s; log := []; next := n |}
  | Do a k => logged [Did a] (run w n k (apply_action a s))
  | Ask q k =>
      let r := reply w n q in
      logged [Asked q r] (run w (S n) (k r) s)
  | Await c k =>
      match settle w n c with
      | Some r => logged [Requested c; Answered c r] (run w (S n) (k r) s)
      | None => {| outcome := Pending; final := s; log := [Requested c]; next := S n |}
      end
  end.

(** *** Reading a trace *)

Definition creation_of (o : Obs) : option PostData.t :=
  match o with Requested (AddDoc _ d) => Some d | _ => None end.

Definition upload_of (o : Obs) : option File :=
  match o with Requested (UploadBytesResumable _ f) => Some f | _ => None end.

Definition commit_of (o : Obs) : option PostData.t :=
  match o with
  | Answered (AddDoc _ d) (Resolved _) => Some d
  | _ => None
  end.

Definition error_of (o : Obs) : option JsError :=
  match o with Did (ConsoleError _ e) => Some e | _ => None end.

Definition alert_of (o : Obs) : option jsstring :=
  match o with Did (Alert msg) => Some msg | _ => None end.

Definition update_of (o : Obs) : option Action :=
  match o with
  | Did PreventDefault | Did (ConsoleError _ _) | Did (Alert _)
  | Did (InsertEmbed _ _) => None
  | Did a => Some a
  | _ => None
  end.

(** The record-creation calls of a trace, and the uploads it started. *)
Definition creation_calls (tr : list Obs) : list PostData.t := omap creation_of tr.

Definition upload_calls (tr : list Obs) : list File := omap upload_of tr.

(** The records the backend committed: the [addDoc] calls it resolved. *)
Definition committed (tr : list Obs) : list PostData.t := omap commit_of tr.

Definition records_created (tr : list Obs) : nat := length (committed tr).

(** The errors a [catch] block or an error observer wrote to the console. *)
Definition errors_logged (tr : list Obs) : list JsError := omap error_of tr.

(** What reached the user as a dialog. *)
Definition alerts (tr : list Obs) : list jsstring := omap alert_of tr.

(** The state setters that were called. *)
Definition state_updates (tr : list Obs) : list Action := omap update_of tr.

(** [continue r f h]: the run [r], followed by [f] if it fulfilled and by
    [h] if it rejected. *)
Definition continue {A B} (r : Result A)
    (f : A -> nat -> State -> Result B)
    (h : JsError -> nat -> State -> Result B) : Result B :=
  match outcome r with
  | Fulfilled a => logged (log r) (f a (next r) (final r))
  | Rejected e => logged (log r) (h e (next r) (final r))
  | Pending =>
      {| outcome := Pending; final := final r; log := log r; next := next r |}
  end.

Definition fulfilled {A} (a : A) (n : nat) (s : State) : Result A :=
  {| outcome := Fulfilled a; final := s; log := []; next := n |}.

Definition rejected {A} (e : JsError) (n : nat) (s : State) : Result A :=
  {| outcome := Rejected e; final := s; log := []; next := n |}.


(** ** The event loop

    One instance of the dashboard view, from its mount on. Handlers run to
    their next [await] without interruption; between two such runs any other
    event may be served. *)

Inductive Handler := CreatePost | DeletePost | InlineImage | Callback.

(** An invocation of a handler that has not finished: suspended at an
    [await] whose request was issued at index [issued], or stalled on a
    promise that nothing settles. *)
Inductive Task :=
| Awaiting (h : Handler) (issued : nat) (c : Request) (k : Response c -> Async unit)
| Stalled (h : Handler).

Definition task_handler (t : Task) : Handler :=
  match t with
  | Awaiting h _ _ _ => h
  | Stalled h => h
  end.

(** Modelled from the spec: the document store behind [onSnapshot] is an
    external service. Of a listener the model keeps what sections 4.1 and 6
    of the specification state: it delivers while it listens, and a failure
    of its channel or its unsubscribe handle ends it for good. The registry
    keeps each listener with the query it was attached to. *)
Inductive Listener := Listening | Failed | Detached.

Record Sys := {
  user : option User;
  ui : State;
  mounted : bool;
  cleanup : nat;
  listeners : list (Query * Listener);
  inflight : list Task;
  clock : nat;
  history : list Obs
}.

Record Progressed := {
  reached : State;
  emitted : list Obs;
  ticked : nat;
  waiting : option Task
}.

Definition emitting (l : list Obs) (p : Progressed) : Progressed :=
  {| reached := reached p; emitted := l ++ emitted p;
     ticked := ticked p; waiting := waiting p |}.

(** Run [m] up to its next [await]. A handler that ends, by returning or by
    a rejection nobody catches, leaves no task behind. *)
Fixpoint advance (w : World) (h : Handler) (m : Async unit) (n : nat) (s : State)
    : Progressed :=
  match m with
  | Ret _ | Throw _ =>
      {| reached := s; emitted := []; ticked := n; waiting := None |}
  | Never =>
      {| reached := s; emitted := []; ticked := n; waiting := Some (Stalled h) |}
  | Do a k => emitting [Did a] (advance w h k n (apply_action a s))
  | Ask q k =>
      let r := reply w n q in
      emitting [Asked q r] (advance w h (k r) (S n) s)
  | Await c k =>
      {| reached := s; emitted := [Requested c]; ticked := S n;
         waiting := Some (Awaiting h n c k) |}
  end.

(** Start or resume a handler inside the system. State updates of an
    unmounted component are dropped by React. *)
Definition launch (w : World) (h : Handler) (m : Async unit) (sys : Sys) : Sys :=
  let p := advance w h m (clock sys) (ui sys) in
  {| user := user sys;
     ui := if mounted sys then reached p else ui sys;
     mounted := mounted sys;
     cleanup := cleanup sys;
     listeners := listeners sys;
     inflight := inflight sys ++ option_list (waiting p);
     clock := ticked p;
     history := history sys ++ emitted p |}.

(** [onSnapshot(q, next, error)]: registers a listener and returns the
    handle that unsubscribes it. *)
Definition onSnapshot (q : Query) (sys : Sys) : Sys * nat :=
  let handle := length (listeners sys) in
  ({| user := user sys; ui := ui sys; mounted := mounted sys;
      cleanup := cleanup sys;
      listeners := listeners sys ++ [(q, Listening)];
      inflight := inflight sys; clock := clock sys;
      history := history sys ++ [Subscribed q handle] |}, handle).

(** [unsubscribe()] *)
Definition unsubscribe (handle : nat) (sys : Sys) : Sys :=
  {| user := user sys; ui := ui sys; mounted := mounted sys;
     cleanup := cleanup sys;
     listeners := alter (fun l => (l.1, Detached)) handle (listeners sys);
     inflight := inflight sys; clock := clock sys;
     history := history sys ++ [Unsubscribed handle] |}.

(** The body of the effect: clear [permissionError], subscribe, and keep
    [() => unsubscribe()] as the cleanup. *)
Definition feed_effect (w : World) (sys : Sys) : Sys :=
  let sys1 := launch w Callback (SetPermissionError None ;;; Ret tt) sys in
  let '(sys2, handle) := onSnapshot feedQuery sys1 in
  {| user := user sys2; ui := ui sys2; mounted := mounted sys2;
     cleanup := handle;
     listeners := listeners sys2; inflight := inflight sys2;
     clock := clock sys2; history := history sys2 |}.

Definition run_cleanup (sys : Sys) : Sys := unsubscribe (cleanup sys) sys.

(** The view right after its first render has committed and its effects
    have run. *)
Definition mount (w : World) (u : option User) : Sys :=
  feed_effect w
    {| user := u; ui := initial_state; mounted := true; cleanup := 0;
       listeners := []; inflight := []; clock := 0; history := [] |}.

(** After a render React re-runs an effect, cleanup first, when its
    dependency array differs from that of the previous render. *)
Definition rerender (w : World) (before after : Sys) : Sys :=
  if mounted after
     && negb (bool_decide (feed_effect_deps (user before) (ui before)
                           = feed_effect_deps (user after) (ui after)))
  then feed_effect w (run_cleanup after)
  else after.

(** [disabled] of the submit button (line 326). *)
Definition submit_disabled (s : State) : bool :=
  isSubmitting s || falsy (trim (title s)) || falsy (content s)
  || bool_decide (content s = EMPTY_DOCUMENT).

(** [user?.uid === post.authorId], the condition under which the delete
    button of a post is rendered; an absent side is [undefined]. *)
Definition delete_offered (u : option User) (p : Post) : bool :=
  bool_decide ((VString ∘ uid) <$> u = p !! js "authorId").

Inductive Event :=
| TitleInput (v : jsstring)
| ContentInput (v : jsstring)
| CoverPicked (file : File)
| PreviewLoaded (dataUrl : jsstring)
| CoverCleared
| AuthChanged (u : option User)
| SubmitRequested
| DeleteClicked (index : nat)
| Settles (index : nat)
| SnapshotArrives (handle : nat) (docs : list QueryDocumentSnapshot)
| ChannelFails (handle : nat) (error : JsError)
| Unmount
| InlineImagePicked (file : File).

Definition drop_task (i : nat) (sys : Sys) (answered : list Obs) : Sys :=
  {| user := user sys; ui := ui sys; mounted := mounted sys;
     cleanup := cleanup sys; listeners := listeners sys;
     inflight := delete i (inflight sys);
     clock := clock sys; history := history sys ++ answered |}.

Definition fail_listener (handle : nat) (sys : Sys) : Sys :=
  {| user := user sys; ui := ui sys; mounted := mounted sys;
     cleanup := cleanup sys;
     listeners := alter (fun l => (l.1, Failed)) handle (listeners sys);
     inflight := inflight sys; clock := clock sys; history := history sys |}.

(** What one event does before React re-renders. User events need the
    rendered view; a disabled submit button submits nothing; a listener
    that is not listening is not called. A click on a delete button is
    modelled for the posts whose [id] is a string, as [interface Post]
    declares and [handleDeletePost] expects: what [doc] makes of any other
    value is not decided in this code, and such a click is left without
    effect here. The handler it would start writes no state of the
    component. *)
Definition react (w : World) (sys : Sys) (ev : Event) : Sys :=
  match ev with
  | TitleInput v =>
      if mounted sys then launch w Callback (SetTitle v ;;; Ret tt) sys else sys
  | ContentInput v =>
      if mounted sys then launch w Callback (SetContent v ;;; Ret tt) sys else sys
  | CoverPicked file =>
      if mounted sys
      then launch w Callback (SetFeaturedImage (Some file) ;;; Ret tt) sys
      else sys
  | PreviewLoaded dataUrl =>
      launch w Callback (SetImagePreview (Some dataUrl) ;;; Ret tt) sys
  | CoverCleared =>
      if mounted sys
      then launch w Callback
             (SetFeaturedImage None ;;; SetImagePreview None ;;; Ret tt) sys
      else sys
  | AuthChanged u =>
      {| user := u; ui := ui sys; mounted := mounted sys; cleanup := cleanup sys;
         listeners := listeners sys; inflight := inflight sys;
         clock := clock sys; history := history sys |}
  | SubmitRequested =>
      if mounted sys && negb (submit_disabled (ui sys))
      then launch w CreatePost (onSubmit (user sys) (ui sys)) sys
      else sys
  | DeleteClicked i =>
      match posts (ui sys) !! i with
      | Some p =>
          match p !! js "id" with
          | Some (VString postId) =>
              if mounted sys && delete_offered (user sys) p
              then launch w DeletePost (handleDeletePost postId) sys
              else sys
          | _ => sys
          end
      | None => sys
      end
  | Settles i =>
      match inflight sys !! i with
      | Some (Awaiting h n c k) =>
          match settle w n c with
          | Some r => launch w h (k r) (drop_task i sys [Answered c r])
          | None => sys
          end
      | _ => sys
      end
  | SnapshotArrives handle docs =>
      match listeners sys !! handle with
      | Some (_, Listening) => launch w Callback (onNext docs) sys
      | _ => sys
      end
  | ChannelFails handle error =>
      match listeners sys !! handle with
      | Some (_, Listening) =>
          launch w Callback (onError error) (fail_listener handle sys)
      | _ => sys
      end
  | Unmount =>
      if mounted sys
      then let sys' := run_cleanup sys in
           {| user := user sys'; ui := ui sys'; mounted := false;
              cleanup := cleanup sys'; listeners := listeners sys';
              inflight := inflight sys'; clock := clock sys';
              history := history sys' |}
      else sys
  | InlineImagePicked file =>
      launch w InlineImage (imageHandler_onchange (user sys) file) sys
  end.

Definition step (w : World) (sys : Sys) (ev : Event) : Sys :=
  rerender w sys (react w sys ev).

Definition run_events (w : World) (sys : Sys) (evs : list Event) : Sys :=
  foldl (step w) sys evs.

(** The submissions in flight: unfinished invocations of
    [handleCreatePost]. *)
Definition is_submission (t : Task) : bool :=
  match task_handler t with CreatePost => true | _ => false end.

Definition submissions (sys : Sys) : list Task :=
  List.filter is_submission (inflight sys).

Definition subscription_of (o : Obs) : option Query :=
  match o with Subscribed q _ => Some q | _ => None end.

Definition unsubscription_of (o : Obs) : option nat :=
  match o with Unsubscribed h => Some h | _ => None end.

Definition delivery_of (o : Obs) : option (list Post) :=
  match o with Did (SetPosts ps) => Some ps | _ => None end.

Definition subscribe_count (tr : list Obs) : nat :=
  length (omap subscription_of tr).

Definition unsubscribe_count (tr : list Obs) : nat :=
  length (omap unsubscription_of tr).

(** A delivery is a call of the [next] observer, seen as its [setPosts]. *)
Definition deliveries (tr : list Obs) : list (list Post) := omap delivery_of tr.

(** Modelled from the spec: the document store is an external service; by
    section 6 of the specification what it pushes to the listener of a
    standing query is the full result set in the order of that query. *)
Definition in_listener_order (sys : Sys) (ev : Event) : bool :=
  match ev with
  | SnapshotArrives handle docs =>
      match listeners sys !! handle with
      | Some (q, _) => in_query_order q docs
      | None => true
      end
  | _ => true
  end.

Fixpoint store_keeps_order (w : World) (sys : Sys) (evs : list Event) : bool :=
  match evs with
  | [] => true
  | ev :: rest => in_listener_order sys ev && store_keeps_order w (step w sys ev) rest
  end.

(** ** Vocabulary of the statements *)

(** What the progress observer logs and stores over a list of snapshots. *)
Definition progress_obs (snapshots : list (N * N)) : list Obs :=
  (fun bt => Did (SetUploadProgress (Percent bt.1 bt.2))) <$> snapshots.

Definition progress_state (snapshots : list (N * N)) (s : State) : State :=
  foldl (fun s bt => setUploadProgress (Percent bt.1 bt.2) s) s snapshots.

(** The validation gate of [handleCreatePost], on the form's fields. *)
Definition valid_input (s : State) : Prop :=
  trim (title s) ≠ [] ∧ content s ≠ [] ∧ content s ≠ EMPTY_DOCUMENT.

Definition invalid_input (s : State) : Prop :=
  trim (title s) = [] ∨ content s = [] ∨ content s = EMPTY_DOCUMENT.

(** A run of [handleCreatePost] succeeded when its [addDoc] resolved, and
    failed when its [catch] block ran. *)
Definition create_succeeded (tr : list Obs) : Prop := records_created tr = 1%nat.

Definition create_failed (tr : list Obs) : Prop := errors_logged tr ≠ [].


(** The composer still holds what the user entered in [s]. *)
Definition form_kept (s s' : State) : Prop :=
  title s' = title s ∧ content s' = content s
  ∧ featuredImage s' = featuredImage s ∧ imagePreview s' = imagePreview s.

(** Every action a computation can perform satisfies [P]. *)
Fixpoint actions_satisfy {A} (P : Action → Prop) (m : Async A) : Prop :=
  match m with
  | Ret _ | Throw _ | Never => True
  | Do a k => P a ∧ actions_satisfy P k
  | Ask q k => ∀ r, actions_satisfy P (k r)
  | Await c k => ∀ r, actions_satisfy P (k r)
  end.

Definition keeps_posts (a : Action) : Prop :=
  match a with SetPosts _ => False | _ => True end.

Definition keeps_flag (a : Action) : Prop :=
  match a with SetIsSubmitting _ => False | _ => True end.

(** [holds_flag b m]: entered with [isSubmitting = b], the computation [m]
    has [isSubmitting = true] whenever it is suspended. *)
Fixpoint holds_flag (b : bool) (m : Async unit) : Prop :=
  match m with
  | Ret _ | Throw _ => True
  | Never => b = true
  | Do (SetIsSubmitting v) k => holds_flag v k
  | Do _ k => holds_flag b k
  | Ask q k => ∀ r, holds_flag b (k r)
  | Await c k => b = true ∧ ∀ r, holds_flag true (k r)
  end.

(** What a handler may leave in the trace by itself: its actions, questions
    and requests. *)
Definition obs_within (P : Action → Prop) (o : Obs) : Prop :=
  match o with
  | Did a => P a
  | Asked _ _ | Requested _ => True
  | _ => False
  end.

(** An unfinished invocation of handler [h] whose remaining actions all
    satisfy [P]. *)
Definition task_within (P : Action → Prop) (h : Handler) (t : Task) : Prop :=
  match t with
  | Awaiting h' _ _ k => h' = h ∧ ∀ r, actions_satisfy P (k r)
  | Stalled h' => h' = h
  end.

(** The messages a handler raises: the text of an alert, and a message
    stored in [permissionError]. The markup returned by the component never
    reads [permissionError], so a stored message is not displayed: this is
    an upper bound of what the user is shown, used to state that nothing
    at all was raised. *)
Definition surface_of (o : Obs) : option jsstring :=
  match o with
  | Did (Alert msg) => Some msg
  | Did (SetPermissionError (Some msg)) => Some msg
  | _ => None
  end.

Definition surfaced (tr : list Obs) : list jsstring := omap surface_of tr.

(** *** Invariants of the event loop *)

(** The view holds one listener, attached to [feedQuery] by the effect; it
    is detached exactly when the view is unmounted. *)
Definition feed_inv (sys : Sys) : Prop :=
  cleanup sys = 0%nat
  ∧ (∃ st, listeners sys = [(feedQuery, st)]
           ∧ (mounted sys = true → st ≠ Detached)
           ∧ (mounted sys = false → st = Detached))
  ∧ subscribe_count (history sys) = 1%nat
  ∧ unsubscribe_count (history sys) = (if mounted sys then 0 else 1)%nat.

(** No unfinished handler will call [setPosts]. *)
Definition tasks_keep_posts (sys : Sys) : Prop :=
  Forall (fun t => task_within keeps_posts (task_handler t) t) (inflight sys).

(** What one event delivers to the subscriber. *)
Definition delivered_by (sys : Sys) (ev : Event) : list (list Post) :=
  match ev with
  | SnapshotArrives handle docs =>
      match listeners sys !! handle with
      | Some (_, Listening) => [toPost <$> docs]
      | _ => []
      end
  | _ => []
  end.


(** Everything delivered so far, and what the view shows, is in feed
    order. *)
Definition sort_inv (sys : Sys) : Prop :=
  feed_inv sys
  ∧ tasks_keep_posts sys
  ∧ Forall (fun ps => feed_sorted ps = true) (deliveries (history sys))
  ∧ feed_sorted (posts (ui sys)) = true.


(** An unfinished [handleCreatePost] keeps [isSubmitting] set until it
    ends; no other unfinished handler touches the flag. *)
Definition task_holds_flag (t : Task) : Prop :=
  match t with
  | Awaiting CreatePost _ _ k => ∀ r, holds_flag true (k r)
  | Awaiting _ _ _ k => ∀ r, actions_satisfy keeps_flag (k r)
  | Stalled _ => True
  end.

Definition submit_inv (sys : Sys) : Prop :=
  Forall task_holds_flag (inflight sys)
  ∧ (length (submissions sys) ≤ 1)%nat
  ∧ (mounted sys = true → submissions sys ≠ [] → isSubmitting (ui sys) = true).

(** ** Sample environments *)

Definition alice : User :=
  {| uid := js "u1"; email := Some (js "alice@example.org") |}.

Definition cover_png : File := {| name := js "cover.png"; size := 100 |}.

(** Every request succeeds; the upload reports 0%, 42%, 100%. *)
Definition world_ok : World :=
  {| reply := fun _ q =>
       match q with
       | DateNow => 1700000000000
       | WindowConfirm _ => true
       | EditorSelection => Some (Some 7)
       end;
     settle := fun _ c =>
       match c with
       | UploadBytesResumable _ _ =>
           Some {| ticks := [(0, 100); (42, 100); (100, 100)]; failure := None |}
       | GetDownloadURL path => Some (Resolved (js "https://cdn.example/" ++ path))
       | AddDoc _ _ => Some (Resolved tt)
       | DeleteDoc _ _ => Some (Resolved tt)
       end |}.

(** Every request is refused with error [e]; the upload gets to 42% first. *)
Definition world_failing (e : JsError) : World :=
  {| reply := fun _ q =>
       match q with
       | DateNow => 1700000000000
       | WindowConfirm _ => true
       | EditorSelection => Some None
       end;
     settle := fun _ c =>
       match c with
       | UploadBytesResumable _ _ =>
           Some {| ticks := [(0, 100); (42, 100)]; failure := Some e |}
       | GetDownloadURL _ => Some (RejectedWith e)
       | AddDoc _ _ => Some (RejectedWith e)
       | DeleteDoc _ _ => Some (RejectedWith e)
       end |}.

Definition permission_denied : JsError := FirebaseError (js "permission-denied").
Definition unavailable : JsError := FirebaseError (js "unavailable").

(** The form filled with a title and a body, without and with a cover. *)
Definition draft (t c : string) : State :=
  setContent (js c) (setTitle (js t) initial_state).

Definition draft_with_cover (t c : string) : State :=
  setImagePreview (Some (js "data:image/png;base64,AAAA"))
    (setFeaturedImage (Some cover_png) (draft t c)).

(** Claim C1 as the specification words it: the one created record carries
    the title as it was entered. *)
Definition created_record_matches_input (w : World) (n : nat) (u : User) (s : State) : Prop :=
  ∃ d, creation_calls (log (run w n (onSubmit (Some u) s) s)) = [d]
       ∧ PostData.title d = title s
       ∧ PostData.content d = content s
       ∧ PostData.imageUrl d = [].

(** Three documents as the store orders them for [feedQuery]: one whose
    server timestamp is still pending, then two committed ones. *)
Definition doc (id : string) (created : JsValue) : QueryDocumentSnapshot :=
  {| doc_id := js id;
     doc_data := {[ js "title" := VString (js id);
                    js "authorId" := VString (js "u1");
                    js "createdAt" := created ]} |}.

Definition sample_feed : list QueryDocumentSnapshot :=
  [ doc "c" VNull;
    doc "b" (VTimestamp {| seconds := 200; nanoseconds := 5 |});
    doc "a" (VTimestamp {| seconds := 100; nanoseconds := 0 |}) ].

(** A session: a first snapshot, a post deleted, the view closed, and a
    late notification. *)
Definition sample_session : list Event :=
  [ SnapshotArrives 0 sample_feed;
    TitleInput (js "Sunset");
    SnapshotArrives 0 (tail sample_feed);
    Unmount;
    SnapshotArrives 0 sample_feed ].

(** The user fills the form and submits; the request is still awaited. *)
Definition submitting_session : list Event :=
  [ TitleInput (js "Sunset"); ContentInput (js "<p>Hello</p>"); SubmitRequested ].

(** ** Further vocabulary: the handlers beyond the claims *)

Definition request_of (o : Obs) : option Request :=
  match o with Requested c => Some c | _ => None end.

(** Every request a trace issued, in order. *)
Definition requests (tr : list Obs) : list Request := omap request_of tr.

Definition embed_of (o : Obs) : option (N * jsstring) :=
  match o with Did (InsertEmbed i url) => Some (i, url) | _ => None end.

(** The images the editor was told to embed. *)
Definition embeds (tr : list Obs) : list (N * jsstring) := omap embed_of tr.

(** Every request a computation can issue satisfies [Q]. *)
Fixpoint requests_satisfy {A} (Q : Request → Prop) (m : Async A) : Prop :=
  match m with
  | Ret _ | Throw _ | Never => True
  | Do _ k => requests_satisfy Q k
  | Ask q k => ∀ r, requests_satisfy Q (k r)
  | Await c k => Q c ∧ ∀ r, requests_satisfy Q (k r)
  end.

Definition is_storage_request (c : Request) : Prop :=
  match c with
  | UploadBytesResumable _ _ | GetDownloadURL _ => True
  | _ => False
  end.

(** The object [handleCreatePost] hands to [addDoc] for user [u], the form
    of [s] and a cover URL. *)
Definition record_for (u : User) (s : State) (imageUrl : jsstring) : PostData.t :=
  {| PostData.title := trim (title s);
     PostData.content := content s;
     PostData.imageUrl := imageUrl;
     PostData.authorId := uid u;
     PostData.authorEmail := author_email u;
     PostData.createdAt := ServerTimestamp |}.

(** The first step of the [try] block: upload the cover if the form holds
    one, else go on with the empty URL. *)
Definition cover_step (user : option User) (s : State) : Async jsstring :=
  match featuredImage s with
  | Some file => uploadImage user file
  | None => Ret []
  end.

Definition WRITE_DENIED : jsstring :=
  js "Write Denied: Check Firestore and Storage rules.".

Definition SAVE_FAILED : jsstring :=
  js "Failed to save post. Please try again.".

(** What [handleCreatePost] does before its [try] block, in its [catch]
    block for error [e], and after [addDoc] resolved. *)
Definition entry_obs : list Obs :=
  [Did PreventDefault; Did (SetIsSubmitting true); Did (SetPermissionError None)].

Definition catch_obs (e : JsError) : list Obs :=
  [Did (ConsoleError (js "Error creating post:") e);
   if is_permission_denied e
   then Did (SetPermissionError (Some WRITE_DENIED))
   else Did (Alert SAVE_FAILED)].

Definition catch_state (e : JsError) (s : State) : State :=
  if is_permission_denied e then setPermissionError (Some WRITE_DENIED) s else s.

Definition reset_obs : list Obs :=
  [Did (SetTitle []); Did (SetContent []); Did (SetFeaturedImage None);
   Did (SetImagePreview None); Did (SetUploadProgress Zero)].

Definition reset_state (s : State) : State :=
  setUploadProgress Zero
    (setImagePreview None (setFeaturedImage None (setContent [] (setTitle [] s)))).

(** A string neither starts nor ends with white space. *)
Definition edge_clean (s : jsstring) : Prop :=
  match head s with Some c => is_white_space c = false | None => True end
  ∧ match last s with Some c => is_white_space c = false | None => True end.

(** The upload completes but [getDownloadURL] is refused with [e]. *)
Definition world_no_url (e : JsError) : World :=
  {| reply := reply world_ok;
     settle := fun n c =>
       match c with
       | GetDownloadURL _ => Some (RejectedWith e)
       | c' => settle world_ok n c'
       end |}.

Definition CONFIRM_DELETE : jsstring :=
  js "Are you sure you want to delete this post?".

Definition DELETE_DENIED : jsstring :=
  js "Permission Denied: You can only delete your own posts.".

Definition EMBED_FAILED : jsstring :=
  js "Failed to upload image to editor.".

(** The actions that call no state setter but [setUploadProgress]. *)
Definition keeps_draft (a : Action) : Prop :=
  match a with
  | SetUploadProgress _ | InsertEmbed _ _ | ConsoleError _ _ | Alert _
  | PreventDefault => True
  | _ => False
  end.

Definition is_progress_update (a : Action) : Prop :=
  match a with SetUploadProgress _ => True | _ => False end.

(** The calls of [setPermissionError] in a trace, with their arguments. *)
Definition permission_of (o : Obs) : option (option jsstring) :=
  match o with
  | Did (SetPermissionError v) => Some v
  | _ => None
  end.

Definition permission_updates (tr : list Obs) : list (option jsstring) :=
  omap permission_of tr.

(** ** Further vocabulary: the event loop *)

Definition is_snapshot (ev : Event) : bool :=
  match ev with SnapshotArrives _ _ => true | _ => false end.

(** What an event added to the history. *)
Definition issued (before after : Sys) : list Obs :=
  drop (length (history before)) (history after).

(** The first request of an accepted submission: the cover upload if the
    form holds a cover, else the record creation itself. *)
Definition first_request (w : World) (u : User) (sys : Sys) : Request :=
  match featuredImage (ui sys) with
  | Some file =>
      UploadBytesResumable
        (storage_path u (reply w (clock sys) DateNow) file) file
  | None => AddDoc (js "posts") (record_for u (ui sys) [])
  end.

(** The form filled, a cover picked, the submission sent, the upload
    completed and the download URL refused. *)
Definition stalling_session : list Event :=
  [ TitleInput (js "Sunset"); ContentInput (js "<p>Hello</p>");
    CoverPicked cover_png; SubmitRequested; Settles 0; Settles 0 ].

(** The actions of every handler but the two feed observers. *)
Definition keeps_loading (a : Action) : Prop :=
  match a with
  | SetIsInitialLoading _ | SetPosts _ => False
  | _ => True
  end.

(** While the view is mounted the spinner shows exactly as long as nothing
    was delivered and the feed listener still listens. *)
Definition loading_inv (sys : Sys) : Prop :=
  Forall (fun t => task_within keeps_loading (task_handler t) t) (inflight sys)
  ∧ (mounted sys = true →
     (isInitialLoading (ui sys) = true
      ↔ deliveries (history sys) = []
        ∧ listeners sys = [(feedQuery, Listening)])).
(** ** Laws of the interpreter *)

Lemma logged_nil {A} (r : Result A) : logged [] r = r.
Proof. by destruct r. Qed.

Lemma logged_logged {A} l1 l2 (r : Result A) :
  logged l1 (logged l2 r) = logged (l1 ++ l2) r.
Proof. unfold logged; simpl. by rewrite app_assoc. Qed.

Lemma continue_logged {A B} l (r : Result A) (f : A -> nat -> State -> Result B) h :
  continue (logged l r) f h = logged l (continue r f h).
Proof.
  unfold continue; simpl.
  destruct (outcome r); by rewrite ?logged_logged.
Qed.

Lemma run_bind {A B} w (m : Async A) (f : A -> Async B) n s :
  run w n (bind m f) s
  = continue (run w n m s) (fun a n' s' => run w n' (f a) s') rejected.
Proof.
  revert n s.
  induction m as [a|e| |a k IH|q k IH|c k IH]; intros n s; simpl.
  - unfold continue; simpl. by rewrite logged_nil.
  - done.
  - done.
  - by rewrite IH, continue_logged.
  - by rewrite IH, continue_logged.
  - destruct (settle w n c) as [r|]; [|done].
    by rewrite IH, continue_logged.
Qed.

Lemma run_try_catch {A} w (m : Async A) h n s :
  run w n (try_catch m h) s
  = continue (run w n m s) fulfilled (fun e n' s' => run w n' (h e) s').
Proof.
  revert n s.
  induction m as [a|e| |a k IH|q k IH|c k IH]; intros n s; simpl.
  - done.
  - unfold continue; simpl. by rewrite logged_nil.
  - done.
  - by rewrite IH, continue_logged.
  - by rewrite IH, continue_logged.
  - destruct (settle w n c) as [r|]; [|done].
    by rewrite IH, continue_logged.
Qed.

Lemma run_finally {A} w (m : Async A) fin n s :
  run w n (finally m fin) s
  = continue (run w n m s)
      (fun a n' s' => run w n' (bind fin (fun _ => Ret a)) s')
      (fun e n' s' => run w n' (bind fin (fun _ => Throw e)) s').
Proof.
  revert n s.
  induction m as [a|e| |a k IH|q k IH|c k IH]; intros n s; simpl.
  - unfold continue; simpl. by rewrite logged_nil.
  - unfold continue; simpl. by rewrite logged_nil.
  - done.
  - by rewrite IH, continue_logged.
  - by rewrite IH, continue_logged.
  - destruct (settle w n c) as [r|]; [|done].
    by rewrite IH, continue_logged.
Qed.

(** The observable part of a run does not depend on the component state:
    no handler branches on it. *)
Lemma run_observation {A} w (m : Async A) n s s' :
  outcome (run w n m s) = outcome (run w n m s')
  ∧ log (run w n m s) = log (run w n m s')
  ∧ next (run w n m s) = next (run w n m s').
Proof.
  revert n s s'.
  induction m as [a|e| |a k IH|q k IH|c k IH]; intros n s s'; simpl; auto.
  - destruct (IH n (apply_action a s) (apply_action a s')) as (-> & -> & ->); auto.
  - destruct (IH (reply w n q) (S n) s s') as (-> & -> & ->); auto.
  - destruct (settle w n c) as [r|]; simpl; auto.
    destruct (IH r (S n) s s') as (-> & -> & ->); auto.
Qed.

Lemma run_report_progress {A} w n snapshots (k : Async A) s :
  run w n (report_progress snapshots k) s
  = logged (progress_obs snapshots) (run w n k (progress_state snapshots s)).
Proof.
  revert s; induction snapshots as [|[b t] rest IH]; intros s; simpl.
  - by rewrite logged_nil.
  - by rewrite IH, logged_logged.
Qed.

Lemma progress_state_frame snapshots s :
  ∃ p, progress_state snapshots s = setUploadProgress p s.
Proof.
  revert s; induction snapshots as [|[b t] rest IH]; intros s; simpl.
  - exists (uploadProgress s). by destruct s.
  - destruct (IH (setUploadProgress (Percent b t) s)) as [p ->]. by exists p.
Qed.

Lemma progress_obs_silent snapshots :
  creation_calls (progress_obs snapshots) = []
  ∧ committed (progress_obs snapshots) = []
  ∧ errors_logged (progress_obs snapshots) = []
  ∧ alerts (progress_obs snapshots) = [].
Proof.
  induction snapshots as [|[b t] rest (IH1 & IH2 & IH3 & IH4)]; simpl; auto.
Qed.

(** [uploadImage] talks to storage only: it creates no record, logs and
    alerts nothing, and touches no state but the progress bar. *)
Lemma uploadImage_run_shape w n user file s :
  let r := run w n (uploadImage user file) s in
  creation_calls (log r) = []
  ∧ committed (log r) = []
  ∧ errors_logged (log r) = []
  ∧ alerts (log r) = []
  ∧ ∃ p, final r = setUploadProgress p s.
Proof.
  assert (Hid : ∃ p, s = setUploadProgress p s)
    by (exists (uploadProgress s); by destruct s).
  destruct user as [u|]; simpl; [|done].
  destruct (settle w (S n) _) as [task|]; simpl; [|done].
  rewrite run_report_progress.
  destruct (progress_obs_silent (ticks task)) as (H1 & H2 & H3 & H4).
  pose proof (progress_state_frame (ticks task) s) as Hp.
  unfold committed, creation_calls, errors_logged, alerts in *.
  destruct (failure task) as [e|]; simpl.
  { rewrite !omap_app, H1, H2, H3, H4; simpl. done. }
  destruct (settle w (S (S n)) _) as [[url|e]|]; simpl;
    rewrite !omap_app, H1, H2, H3, H4; simpl; done.
Qed.

(** ** The validation gate *)

Lemma gate_closed (u : option User) s :
  invalid_input s ∨ u = None →
  falsy (trim (title s))
  || (falsy (content s) || bool_decide (content s = EMPTY_DOCUMENT))
  || is_null u = true.
Proof.
  intros [[H|[H|H]]|H].
  - by rewrite H.
  - rewrite H. simpl. by rewrite orb_true_r.
  - rewrite (bool_decide_eq_true_2 _ H). by rewrite !orb_true_r.
  - rewrite H. simpl. by rewrite !orb_true_r.
Qed.

Lemma gate_open (u : User) s :
  valid_input s →
  falsy (trim (title s))
  || (falsy (content s) || bool_decide (content s = EMPTY_DOCUMENT))
  || is_null (Some u) = false.
Proof.
  intros (Ht & Hc & Hd).
  rewrite (bool_decide_eq_false_2 _ Hd).
  destruct (trim (title s)); [done|].
  by destruct (content s).
Qed.

Lemma onSubmit_blocked w n u s :
  invalid_input s ∨ u = None →
  run w n (onSubmit u s) s
  = {| outcome := Fulfilled tt; final := s; log := [Did PreventDefault]; next := n |}.
Proof.
  intros H. unfold onSubmit, handleCreatePost. cbv zeta.
  by rewrite (gate_closed _ _ H).
Qed.

(** C4. When the title is empty after trimming, or the content is empty or
    the editor's empty document, [handleCreatePost] returns at once: the
    state is unchanged, no setter runs, and no upload and no record-creation
    call is issued. *)
Theorem createPost_invalid_input_is_noop w n u s :
  invalid_input s →
  let r := run w n (onSubmit u s) s in
  outcome r = Fulfilled tt
  ∧ final r = s
  ∧ state_updates (log r) = []
  ∧ upload_calls (log r) = []
  ∧ creation_calls (log r) = [].
Proof.
  intros H r. subst r. rewrite onSubmit_blocked by auto. done.
Qed.

Lemma createPost_invalid_input_is_noop_witness :
  let s := draft "   " "<p>Hi</p>" in
  let r := run world_ok 0 (onSubmit (Some alice) s) s in
  invalid_input s
  ∧ outcome r = Fulfilled tt ∧ final r = s ∧ state_updates (log r) = []
  ∧ upload_calls (log r) = [] ∧ creation_calls (log r) = [].
Proof.
  assert (H : invalid_input (draft "   " "<p>Hi</p>")) by (left; reflexivity).
  split; [exact H|].
  exact (createPost_invalid_input_is_noop world_ok 0 (Some alice) _ H).
Defined.

(** C10. Without an authenticated user [handleCreatePost] returns at the
    same gate as a validation failure, whatever the form holds: nothing is
    alerted or logged, [permissionError] and the rest of the state are
    unchanged, and no upload and no record-creation call is issued. *)
Theorem createPost_without_user_is_silent_noop w n s :
  let r := run w n (onSubmit None s) s in
  (∀ u s', invalid_input s' →
     log (run w n (onSubmit u s') s') = log r
     ∧ outcome (run w n (onSubmit u s') s') = outcome r)
  ∧ final r = s
  ∧ alerts (log r) = []
  ∧ errors_logged (log r) = []
  ∧ upload_calls (log r) = []
  ∧ creation_calls (log r) = [].
Proof.
  intros r. subst r. rewrite onSubmit_blocked by auto.
  split; [|done]. intros u s' H. by rewrite onSubmit_blocked by auto.
Qed.

(** ** Creating a post *)

(** C1, as the code has it. For a valid title and content, no cover file and
    an authenticated user, [handleCreatePost] issues exactly one
    record-creation call; the record's content is the input content, its
    title is the input title with surrounding white space trimmed, and its
    image field is the empty string. *)
Theorem createPost_no_cover_issues_one_record w n u s :
  valid_input s →
  featuredImage s = None →
  ∃ d, creation_calls (log (run w n (onSubmit (Some u) s) s)) = [d]
       ∧ PostData.title d = trim (title s)
       ∧ PostData.content d = content s
       ∧ PostData.imageUrl d = [].
Proof.
  intros Hv Hc. unfold onSubmit, handleCreatePost. cbv zeta.
  rewrite (gate_open _ _ Hv), Hc. simpl.
  destruct (settle w n _) as [[[]|e]|]; simpl.
  - eexists; split; [reflexivity|done].
  - destruct (is_permission_denied e); simpl; eexists; (split; [reflexivity|done]).
  - eexists; split; [reflexivity|done].
Qed.

Lemma createPost_no_cover_issues_one_record_witness :
  let s := draft " Sunset " "<p>Hello</p>" in
  valid_input s ∧ featuredImage s = None
  ∧ ∃ d, creation_calls (log (run world_ok 0 (onSubmit (Some alice) s) s)) = [d]
         ∧ PostData.title d = trim (title s)
         ∧ PostData.content d = content s
         ∧ PostData.imageUrl d = [].
Proof.
  assert (Hv : valid_input (draft " Sunset " "<p>Hello</p>"))
    by (repeat split; vm_compute; discriminate).
  split; [exact Hv|]. split; [reflexivity|].
  exact (createPost_no_cover_issues_one_record world_ok 0 alice _ Hv eq_refl).
Defined.

(** C1 as worded fails on a padded title: the record holds ["Sunset"], the
    input was [" Sunset "]. *)
Lemma createPost_record_title_is_trimmed :
  let s := draft " Sunset " "<p>Hello</p>" in
  valid_input s ∧ featuredImage s = None
  ∧ ¬ created_record_matches_input world_ok 0 alice s.
Proof.
  split; [repeat split; vm_compute; discriminate|].
  split; [reflexivity|].
  intros (d & Hd & Ht & _).
  vm_compute in Hd. injection Hd as <-.
  vm_compute in Ht. discriminate.
Qed.

(** ** Failure of the cover upload *)

Lemma continue_fulfilled {A B} (r : Result A) a
    (f : A -> nat -> State -> Result B) h :
  outcome r = Fulfilled a → continue r f h = logged (log r) (f a (next r) (final r)).
Proof. unfold continue. by intros ->. Qed.

Lemma continue_rejected {A B} (r : Result A) e
    (f : A -> nat -> State -> Result B) h :
  outcome r = Rejected e → continue r f h = logged (log r) (h e (next r) (final r)).
Proof. unfold continue. by intros ->. Qed.

Lemma continue_pending {A B} (r : Result A)
    (f : A -> nat -> State -> Result B) h :
  outcome r = Pending →
  continue r f h
  = {| outcome := Pending; final := final r; log := log r; next := next r |}.
Proof. unfold continue. by intros ->. Qed.

Opaque uploadImage.

(** C2. When the form holds a cover file and the promise of [uploadImage]
    rejects, [handleCreatePost] makes no record-creation call, so the backend
    commits no record, and the posts shown are the same as before. *)
Theorem createPost_failed_upload_creates_nothing w n user s file e :
  featuredImage s = Some file →
  outcome (run w n (uploadImage user file) s) = Rejected e →
  let r := run w n (onSubmit user s) s in
  creation_calls (log r) = []
  ∧ records_created (log r) = 0%nat
  ∧ posts (final r) = posts s.
Proof.
  intros Hf Hup r; subst r.
  unfold onSubmit, handleCreatePost. cbv zeta.
  destruct (_ || _ || is_null user) eqn:G; [done|].
  destruct user as [u|]; [|done].
  rewrite Hf. simpl.
  rewrite run_finally, run_try_catch, run_bind.
  set (s3 := setPermissionError None (setIsSubmitting true s)).
  destruct (run_observation w (uploadImage (Some u) file) n s s3) as (Ho & _ & _).
  rewrite Hup in Ho. symmetry in Ho.
  destruct (uploadImage_run_shape w n (Some u) file s3) as (Hc & Hk & _ & _ & p & Hfin).
  rewrite (continue_rejected (run w n (uploadImage (Some u) file) s3) e) by done.
  rewrite !continue_logged.
  unfold records_created, creation_calls, committed in *.
  unfold continue; simpl. rewrite Hfin.
  destruct (is_permission_denied e); simpl;
    rewrite !omap_app, Hc, Hk; done.
Qed.

Transparent uploadImage.

Lemma createPost_failed_upload_creates_nothing_witness :
  let s := draft_with_cover "Sunset" "<p>Hello</p>" in
  let w := world_failing unavailable in
  let r := run w 0 (onSubmit (Some alice) s) s in
  featuredImage s = Some cover_png
  ∧ outcome (run w 0 (uploadImage (Some alice) cover_png) s) = Rejected unavailable
  ∧ creation_calls (log r) = []
  ∧ records_created (log r) = 0%nat
  ∧ posts (final r) = posts s.
Proof.
  split; [reflexivity|]. split; [reflexivity|].
  exact (createPost_failed_upload_creates_nothing (world_failing unavailable) 0
           (Some alice) (draft_with_cover "Sunset" "<p>Hello</p>") cover_png
           unavailable eq_refl eq_refl).
Defined.

(** ** Form state after a run *)

Opaque uploadImage.


(** A run that completes on a valid form with a user either succeeded or
    failed: the two cases of C9 leave nothing out. *)
Lemma createPost_completes_one_way w n u s :
  valid_input s →
  let r := run w n (onSubmit (Some u) s) s in
  outcome r = Fulfilled tt →
  create_succeeded (log r) ∨ create_failed (log r).
Proof.
  intros Hv r; subst r.
  unfold create_succeeded, create_failed, records_created, committed, errors_logged.
  unfold onSubmit, handleCreatePost. cbv zeta.
  rewrite (gate_open _ _ Hv).
  destruct (featuredImage s) as [file|] eqn:Hf.
  - simpl. rewrite run_finally, run_try_catch, run_bind.
    set (s3 := setPermissionError None (setIsSubmitting true s)).
    destruct (uploadImage_run_shape w n (Some u) file s3)
      as (_ & Hk & He & _ & p & Hfin).
    unfold committed, errors_logged in Hk, He.
    set (R := run w n (uploadImage (Some u) file) s3) in *.
    destruct (outcome R) as [url|e|] eqn:Ho.
    + rewrite (continue_fulfilled R url) by done.
      rewrite !continue_logged. simpl.
      destruct (settle w (next R) _) as [[[]|e]|]; unfold continue; simpl.
      * intros _. left. by rewrite !omap_app, Hk.
      * intros _. right.
        destruct (is_permission_denied e); simpl; rewrite !omap_app, He;
          simpl; discriminate.
      * discriminate.
    + rewrite (continue_rejected R e) by done.
      rewrite !continue_logged. unfold continue; simpl.
      intros _. right.
      destruct (is_permission_denied e); simpl; rewrite !omap_app, He;
        simpl; discriminate.
    + rewrite (continue_pending R) by done.
      unfold continue; simpl. discriminate.
  - simpl.
    destruct (settle w n _) as [[[]|e]|]; simpl.
    + by left.
    + right. destruct (is_permission_denied e); simpl; discriminate.
    + discriminate.
Qed.

Transparent uploadImage.


(** ** Deleting a post *)

(** C6, the code at the failing input. A delete that fails because the
    backend is unreachable raises the very alert that a delete refused for
    lack of ownership raises. *)
Theorem deletePost_failure_alert_ignores_cause :
  let generic := run (world_failing unavailable) 0
                   (handleDeletePost (js "p1")) initial_state in
  let refused := run (world_failing permission_denied) 0
                   (handleDeletePost (js "p1")) initial_state in
  alerts (log refused)
  = [js "Permission Denied: You can only delete your own posts."]
  ∧ alerts (log generic) = alerts (log refused).
Proof. split; reflexivity. Qed.

(** Whatever the error of a confirmed delete, the alert is the same. *)
Lemma deletePost_failure_alert w n postId e s :
  reply w n (WindowConfirm (js "Are you sure you want to delete this post?")) = true →
  settle w (S n) (DeleteDoc (js "posts") postId) = Some (RejectedWith e) →
  alerts (log (run w n (handleDeletePost postId) s))
  = [js "Permission Denied: You can only delete your own posts."].
Proof.
  intros Hc Hd. unfold handleDeletePost. simpl. rewrite Hc. simpl.
  rewrite Hd. reflexivity.
Qed.

(** ** The event loop: general facts *)

(** The effect's dependency array never changes, so no render re-runs it. *)
Lemma rerender_id w before after : rerender w before after = after.
Proof.
  unfold rerender, feed_effect_deps.
  rewrite bool_decide_eq_true_2 by done. simpl. by rewrite andb_false_r.
Qed.

Lemma step_react w sys ev : step w sys ev = react w sys ev.
Proof. apply rerender_id. Qed.

Lemma run_events_snoc w sys evs ev :
  run_events w sys (evs ++ [ev]) = step w (run_events w sys evs) ev.
Proof. unfold run_events. by rewrite foldl_app. Qed.

Lemma run_events_app w sys evs evs' :
  run_events w sys (evs ++ evs') = run_events w (run_events w sys evs) evs'.
Proof. unfold run_events. by rewrite foldl_app. Qed.

Lemma actions_satisfy_bind {A B} P (m : Async A) (f : A → Async B) :
  actions_satisfy P m → (∀ a, actions_satisfy P (f a)) →
  actions_satisfy P (bind m f).
Proof.
  intros Hm Hf. induction m as [a|e| |a k IH|q k IH|c k IH]; simpl in *; auto.
  destruct Hm; auto.
Qed.

Lemma actions_satisfy_try_catch {A} P (m : Async A) h :
  actions_satisfy P m → (∀ e, actions_satisfy P (h e)) →
  actions_satisfy P (try_catch m h).
Proof.
  intros Hm Hh. induction m as [a|e| |a k IH|q k IH|c k IH]; simpl in *; auto.
  destruct Hm; auto.
Qed.

Lemma actions_satisfy_finally {A} P (m : Async A) fin :
  actions_satisfy P m → actions_satisfy P fin →
  actions_satisfy P (finally m fin).
Proof.
  intros Hm Hf. induction m as [a|e| |a k IH|q k IH|c k IH]; simpl in *; auto.
  - by apply actions_satisfy_bind.
  - by apply actions_satisfy_bind.
  - destruct Hm; auto.
Qed.

Lemma actions_satisfy_report_progress {A} P snapshots (k : Async A) :
  (∀ p, P (SetUploadProgress p)) → actions_satisfy P k →
  actions_satisfy P (report_progress snapshots k).
Proof.
  intros HP Hk. induction snapshots as [|[b t] rest IH]; simpl; auto.
Qed.

Lemma actions_satisfy_uploadImage P user file :
  (∀ p, P (SetUploadProgress p)) → actions_satisfy P (uploadImage user file).
Proof.
  intros HP. destruct user as [u|]; simpl; [|done].
  intros now task. apply actions_satisfy_report_progress; [done|].
  destruct (failure task); simpl; [done|]. by intros [url|e].
Qed.

(** The body of the [try] block and the [catch] block of
    [handleCreatePost] never call [setIsSubmitting] nor [setPosts]; the
    whole handler never calls [setPosts]. *)
Lemma actions_satisfy_handleCreatePost P user t c cover :
  P PreventDefault → P (SetIsSubmitting true) → P (SetIsSubmitting false) →
  (∀ v, P (SetPermissionError v)) → (∀ p, P (SetUploadProgress p)) →
  P (SetTitle []) → P (SetContent []) → P (SetFeaturedImage None) →
  P (SetImagePreview None) → (∀ l e, P (ConsoleError l e)) → (∀ msg, P (Alert msg)) →
  actions_satisfy P (handleCreatePost user t c cover).
Proof.
  intros. unfold handleCreatePost. cbv zeta. split; [done|].
  destruct (_ || _ || is_null user); [done|].
  destruct user as [u|]; [|done].
  split; [done|]. split; [done|].
  apply actions_satisfy_finally; [|by split].
  apply actions_satisfy_try_catch.
  - apply actions_satisfy_bind.
    + destruct cover; [by apply actions_satisfy_uploadImage|done].
    + intros url. simpl. intros [[]|e]; simpl; done.
  - intros e. simpl. split; [done|].
    destruct (is_permission_denied e); simpl; done.
Qed.

Lemma actions_satisfy_handleDeletePost P postId :
  (∀ l e, P (ConsoleError l e)) → (∀ msg, P (Alert msg)) →
  actions_satisfy P (handleDeletePost postId).
Proof.
  intros. unfold handleDeletePost. simpl. intros [|]; simpl; [|done].
  intros [[]|e]; simpl; done.
Qed.

Lemma actions_satisfy_imageHandler P user file :
  (∀ p, P (SetUploadProgress p)) → (∀ i url, P (InsertEmbed i url)) →
  (∀ l e, P (ConsoleError l e)) → (∀ msg, P (Alert msg)) →
  actions_satisfy P (imageHandler_onchange user file).
Proof.
  intros. unfold imageHandler_onchange. apply actions_satisfy_try_catch.
  - apply actions_satisfy_bind; [by apply actions_satisfy_uploadImage|].
    intros url. simpl. intros [range|]; simpl; done.
  - intros e. simpl. done.
Qed.

Lemma actions_satisfy_onError P error :
  (∀ l e, P (ConsoleError l e)) → (∀ v, P (SetPermissionError v)) →
  P (SetIsInitialLoading false) →
  actions_satisfy P (onError error).
Proof.
  intros. unfold onError. split; [done|].
  destruct (is_permission_denied error); simpl; done.
Qed.

(** Running a computation to its next [await] emits only what it contains,
    and what remains of it is a task of the same handler. *)
Lemma advance_within P w h m n s :
  actions_satisfy P m →
  let p := advance w h m n s in
  Forall (obs_within P) (emitted p)
  ∧ match waiting p with
    | Some t => task_within P h t
    | None => True
    end.
Proof.
  revert n s. induction m as [a|e| |a k IH|q k IH|c k IH]; intros n s Hm; simpl in *.
  - done.
  - done.
  - done.
  - destruct Hm as [Ha Hk]. destruct (IH n (apply_action a s) Hk) as [H1 H2].
    split; [by constructor|done].
  - destruct (IH (reply w n q) (S n) s (Hm _)) as [H1 H2].
    split; [by constructor|done].
  - split; [by repeat constructor|done].
Qed.

Lemma actions_satisfy_True {A} (m : Async A) : actions_satisfy (λ _, True) m.
Proof. induction m; simpl; auto. Qed.

(** Neither a subscription nor a cancellation is ever made by a handler. *)
Lemma emitted_no_subscription w h m n s :
  omap subscription_of (emitted (advance w h m n s)) = []
  ∧ omap unsubscription_of (emitted (advance w h m n s)) = [].
Proof.
  destruct (advance_within (λ _, True) w h m n s (actions_satisfy_True m)) as [H _].
  induction H as [|o l Ho _ [IH1 IH2]]; [done|].
  destruct o; simpl in *; try done.
Qed.

(** ** The feed subscription over the life of the view *)

Lemma feed_inv_mount w u : feed_inv (mount w u).
Proof.
  unfold feed_inv, mount, feed_effect, subscribe_count, unsubscribe_count; simpl.
  repeat split. exists Listening. by repeat split.
Qed.

Lemma feed_inv_launch w h m sys : feed_inv sys → feed_inv (launch w h m sys).
Proof.
  intros (Hc & Hl & Hs & Hu).
  destruct (emitted_no_subscription w h m (clock sys) (ui sys)) as [E1 E2].
  unfold feed_inv, subscribe_count, unsubscribe_count in *; simpl.
  rewrite !omap_app, E1, E2, !app_nil_r. done.
Qed.

Lemma feed_inv_drop_task i sys c r :
  feed_inv sys → feed_inv (drop_task i sys [Answered c r]).
Proof.
  intros (Hc & Hl & Hs & Hu).
  unfold feed_inv, subscribe_count, unsubscribe_count in *; simpl.
  rewrite !omap_app, !app_nil_r. done.
Qed.

Lemma feed_inv_step w sys ev : feed_inv sys → feed_inv (step w sys ev).
Proof.
  intros Hinv. rewrite step_react.
  destruct ev as [v|v|file|url| |u| |i|i|h docs|h error| |file']; simpl.
  - destruct (mounted sys); [by apply feed_inv_launch|done].
  - destruct (mounted sys); [by apply feed_inv_launch|done].
  - destruct (mounted sys); [by apply feed_inv_launch|done].
  - by apply feed_inv_launch.
  - destruct (mounted sys); [by apply feed_inv_launch|done].
  - done.
  - destruct (_ && _); [by apply feed_inv_launch|done].
  - destruct (posts (ui sys) !! i) as [p|]; [|done].
    destruct (p !! js "id") as [[|postId|]|]; try done.
    destruct (_ && _); [by apply feed_inv_launch|done].
  - destruct (inflight sys !! i) as [[h n c k|h]|]; try done.
    destruct (settle w n c) as [r|]; [|done].
    by apply feed_inv_launch, feed_inv_drop_task.
  - destruct (listeners sys !! h) as [[q [| |]]|]; try done.
    by apply feed_inv_launch.
  - destruct (listeners sys !! h) as [[q [| |]]|] eqn:Hh; try done.
    apply feed_inv_launch.
    destruct Hinv as (Hc & (st & Hl & Hm & Hu) & Hs & Hn).
    rewrite Hl in Hh. destruct h as [|h]; [|done].
    injection Hh as <- ->.
    unfold feed_inv, fail_listener; simpl. rewrite Hl. simpl.
    split; [done|]. split; [|done].
    exists Failed. split; [done|]. split; [done|].
    intros Hf. by specialize (Hu Hf).
  - destruct (mounted sys) eqn:Hm; [|done].
    destruct Hinv as (Hc & (st & Hl & _ & _) & Hs & Hn).
    unfold feed_inv, run_cleanup, unsubscribe, subscribe_count, unsubscribe_count in *.
    simpl. rewrite Hc, Hl, !omap_app, !length_app, Hs, Hn, Hm. simpl.
    split; [done|]. split; [|done].
    exists Detached. by repeat split.
  - by apply feed_inv_launch.
Qed.

Lemma feed_inv_run w u evs : feed_inv (run_events w (mount w u) evs).
Proof.
  induction evs as [|ev evs IH] using rev_ind.
  - apply feed_inv_mount.
  - rewrite run_events_snoc. by apply feed_inv_step.
Qed.

(** *** Deliveries *)

Lemma obs_within_no_delivery l :
  Forall (obs_within keeps_posts) l → omap delivery_of l = [].
Proof.
  induction 1 as [|o l Ho _ IH]; [done|].
  destruct o as [a| | | | | ]; simpl in *; try done. by destruct a.
Qed.

Lemma deliveries_launch w h m sys :
  actions_satisfy keeps_posts m →
  deliveries (history (launch w h m sys)) = deliveries (history sys).
Proof.
  intros Hm.
  destruct (advance_within keeps_posts w h m (clock sys) (ui sys) Hm) as [H _].
  unfold deliveries; simpl.
  by rewrite omap_app, (obs_within_no_delivery _ H), app_nil_r.
Qed.

Lemma tasks_keep_posts_launch w h m sys :
  actions_satisfy keeps_posts m →
  tasks_keep_posts sys → tasks_keep_posts (launch w h m sys).
Proof.
  intros Hm Ht.
  destruct (advance_within keeps_posts w h m (clock sys) (ui sys) Hm) as [_ H].
  unfold tasks_keep_posts in *; simpl.
  apply Forall_app; split; [done|].
  destruct (waiting _) as [t|]; simpl; [|done].
  constructor; [|done].
  destruct t as [h' n c k|h']; simpl in *; [destruct H as [-> H]|]; done.
Qed.

Lemma handlers_keep_posts user s postId error :
  actions_satisfy keeps_posts (onSubmit user s)
  ∧ actions_satisfy keeps_posts (handleDeletePost postId)
  ∧ actions_satisfy keeps_posts (onError error).
Proof.
  split; [by apply actions_satisfy_handleCreatePost|].
  split; [by apply actions_satisfy_handleDeletePost|].
  by apply actions_satisfy_onError.
Qed.

Lemma tasks_keep_posts_step w sys ev :
  tasks_keep_posts sys → tasks_keep_posts (step w sys ev).
Proof.
  intros Hinv. rewrite step_react.
  destruct ev as [v|v|file|url| |u| |i|i|h docs|h error| |file']; simpl.
  - destruct (mounted sys); [by apply tasks_keep_posts_launch|done].
  - destruct (mounted sys); [by apply tasks_keep_posts_launch|done].
  - destruct (mounted sys); [by apply tasks_keep_posts_launch|done].
  - by apply tasks_keep_posts_launch.
  - destruct (mounted sys); [by apply tasks_keep_posts_launch|done].
  - done.
  - destruct (_ && _); [|done].
    apply tasks_keep_posts_launch; [|done].
    apply (handlers_keep_posts _ _ [] (ErrString [])).
  - destruct (posts (ui sys) !! i) as [p|]; [|done].
    destruct (p !! js "id") as [[|postId|]|]; try done.
    destruct (_ && _); [|done].
    apply tasks_keep_posts_launch; [|done].
    apply (handlers_keep_posts None initial_state postId (ErrString [])).
  - destruct (inflight sys !! i) as [[h n c k|h]|] eqn:Hi; try done.
    destruct (settle w n c) as [r|]; [|done].
    unfold tasks_keep_posts in Hinv.
    pose proof (Forall_lookup_1 _ _ _ _ Hinv Hi) as [_ Hk]. simpl in Hk.
    apply tasks_keep_posts_launch; [done|].
    unfold tasks_keep_posts, drop_task; simpl. by apply Forall_delete.
  - destruct (listeners sys !! h) as [[q [| |]]|]; try done.
    unfold tasks_keep_posts, launch in *; simpl. by rewrite app_nil_r.
  - destruct (listeners sys !! h) as [[q [| |]]|]; try done.
    apply tasks_keep_posts_launch; [|done].
    apply (handlers_keep_posts None initial_state [] error).
  - by destruct (mounted sys).
  - apply tasks_keep_posts_launch; [|done].
    by apply actions_satisfy_imageHandler.
Qed.

Lemma tasks_keep_posts_run w u evs : tasks_keep_posts (run_events w (mount w u) evs).
Proof.
  induction evs as [|ev evs IH] using rev_ind.
  - by constructor.
  - rewrite run_events_snoc. by apply tasks_keep_posts_step.
Qed.

(** Each step delivers exactly what a notification to a listening listener
    carries, mapped through [toPost], and nothing else. *)
Lemma deliveries_step w sys ev :
  tasks_keep_posts sys →
  deliveries (history (step w sys ev))
  = deliveries (history sys) ++ delivered_by sys ev.
Proof.
  intros Hinv. rewrite step_react.
  destruct ev as [v|v|file|url| |u| |i|i|h docs|h error| |file']; simpl;
    rewrite ?app_nil_r.
  - destruct (mounted sys); [by apply deliveries_launch|done].
  - destruct (mounted sys); [by apply deliveries_launch|done].
  - destruct (mounted sys); [by apply deliveries_launch|done].
  - unfold deliveries; simpl. by rewrite omap_app, app_nil_r.
  - destruct (mounted sys); [by apply deliveries_launch|done].
  - done.
  - destruct (_ && _); [|done].
    apply deliveries_launch, (handlers_keep_posts _ _ [] (ErrString [])).
  - destruct (posts (ui sys) !! i) as [p|]; [|done].
    destruct (p !! js "id") as [[|postId|]|]; try done.
    destruct (_ && _); [|done].
    apply deliveries_launch, (handlers_keep_posts None initial_state postId (ErrString [])).
  - destruct (inflight sys !! i) as [[h n c k|h]|] eqn:Hi; try done.
    destruct (settle w n c) as [r|]; [|done].
    pose proof (Forall_lookup_1 _ _ _ _ Hinv Hi) as [_ Hk]. simpl in Hk.
    rewrite deliveries_launch by done.
    unfold deliveries, drop_task; simpl. by rewrite omap_app, app_nil_r.
  - destruct (listeners sys !! h) as [[q [| |]]|]; rewrite ?app_nil_r; try done.
    unfold deliveries, launch; simpl. by rewrite omap_app.
  - destruct (listeners sys !! h) as [[q [| |]]|]; try done.
    rewrite deliveries_launch; [done|].
    apply (handlers_keep_posts None initial_state [] error).
  - destruct (mounted sys); [|done].
    unfold deliveries, run_cleanup, unsubscribe; simpl.
    by rewrite omap_app, app_nil_r.
  - apply (deliveries_launch w InlineImage (imageHandler_onchange (user sys) file') sys).
    by apply actions_satisfy_imageHandler.
Qed.

(** *** C8: one subscription per mount *)

Lemma unmounted_step w sys ev : mounted sys = false → mounted (step w sys ev) = false.
Proof.
  intros Hm. rewrite step_react.
  destruct ev as [v|v|file|url| |u| |i|i|h docs|h error| |file']; simpl;
    rewrite ?Hm; try done.
  - destruct (posts (ui sys) !! i) as [p|]; [|done].
    by destruct (p !! js "id") as [[|postId|]|].
  - destruct (inflight sys !! i) as [[h n c k|h]|]; try done.
    by destruct (settle w n c).
  - by destruct (listeners sys !! h) as [[q [| |]]|].
  - by destruct (listeners sys !! h) as [[q [| |]]|].
Qed.

Lemma unmounted_delivers_nothing sys ev :
  feed_inv sys → mounted sys = false → delivered_by sys ev = [].
Proof.
  intros (_ & (st & Hl & _ & Hd) & _) Hm.
  destruct ev; simpl; try done.
  rewrite Hl, (Hd Hm). by destruct handle as [|[|?]].
Qed.

(** C8. From the mount of the view on, whatever happens, the history holds
    exactly one subscription; it holds no cancellation while the view is
    mounted and exactly one once it is unmounted; and once the unsubscribe
    handle has run, no further event, backend notifications included,
    delivers anything to the subscriber. *)
Theorem feed_subscribed_once_per_mount w u evs :
  let sys := run_events w (mount w u) evs in
  subscribe_count (history sys) = 1%nat
  ∧ unsubscribe_count (history sys) = (if mounted sys then 0 else 1)%nat
  ∧ (unsubscribe_count (history sys) = 1%nat →
     ∀ evs', deliveries (history (run_events w sys evs')) = deliveries (history sys)).
Proof.
  intros sys.
  pose proof (feed_inv_run w u evs) as Hinv. fold sys in Hinv.
  destruct Hinv as (Hc & Hl & Hs & Hu).
  split; [done|]. split; [done|].
  intros H1. rewrite Hu in H1.
  destruct (mounted sys) eqn:Hm; [done|].
  intros evs'. induction evs' as [|ev evs' IH] using rev_ind; [done|].
  rewrite run_events_snoc. subst sys.
  rewrite <- run_events_app in *.
  rewrite deliveries_step by apply tasks_keep_posts_run.
  rewrite unmounted_delivers_nothing, app_nil_r; [done|apply feed_inv_run|].
  rewrite run_events_app.
  clear IH. induction evs' as [|ev' evs' IH] using rev_ind; [done|].
  rewrite run_events_snoc. by apply unmounted_step.
Qed.

Lemma feed_subscribed_once_per_mount_witness :
  let sys := run_events world_ok (mount world_ok (Some alice)) (take 4 sample_session) in
  unsubscribe_count (history sys) = 1%nat
  ∧ deliveries (history (run_events world_ok sys (drop 4 sample_session)))
    = deliveries (history sys).
Proof.
  assert (H : unsubscribe_count
                (history (run_events world_ok (mount world_ok (Some alice))
                            (take 4 sample_session))) = 1%nat) by reflexivity.
  split; [exact H|].
  exact (proj2 (proj2 (feed_subscribed_once_per_mount world_ok (Some alice)
                         (take 4 sample_session))) H (drop 4 sample_session)).
Defined.

(** *** C3: deliveries are in feed order *)

Lemma toPost_createdAt d : createdAt (toPost d) = doc_data d !! js "createdAt".
Proof.
  unfold createdAt, toPost. rewrite lookup_union.
  rewrite lookup_singleton_ne by (vm_compute; discriminate).
  by destruct (doc_data d !! js "createdAt").
Qed.

Lemma in_query_order_sorted docs :
  in_query_order feedQuery docs = true → feed_sorted (toPost <$> docs) = true.
Proof.
  induction docs as [|d rest IH]; [done|].
  cbn [in_query_order]. intros [Hd Hrest]%andb_prop.
  rewrite fmap_cons. cbn [feed_sorted].
  rewrite (IH Hrest), andb_true_r.
  clear IH Hrest. induction rest as [|d' rest IH]; [done|].
  cbn [forallb] in Hd. apply andb_prop in Hd as [Hd Hrest].
  rewrite fmap_cons. cbn [forallb].
  rewrite (IH Hrest), andb_true_r, !toPost_createdAt.
  exact Hd.
Qed.

Lemma advance_keeps_posts w h m n s :
  actions_satisfy keeps_posts m → posts (reached (advance w h m n s)) = posts s.
Proof.
  revert n s. induction m as [a|e| |a k IH|q k IH|c k IH]; intros n s Hm;
    simpl in *; try done.
  - destruct Hm as [Ha Hk]. rewrite IH by done. by destruct a.
  - by rewrite IH.
Qed.

Lemma posts_launch w h m sys :
  actions_satisfy keeps_posts m → posts (ui (launch w h m sys)) = posts (ui sys).
Proof.
  intros Hm. unfold launch; simpl.
  destruct (mounted sys); [by apply advance_keeps_posts|done].
Qed.

(** The posts shown change only by a delivery. *)
Lemma posts_step w sys ev :
  tasks_keep_posts sys →
  posts (ui (step w sys ev)) = posts (ui sys)
  ∨ delivered_by sys ev = [posts (ui (step w sys ev))].
Proof.
  intros Hinv. rewrite step_react.
  destruct ev as [v|v|file|url| |u| |i|i|h docs|h error| |file']; simpl.
  - left. destruct (mounted sys); [by apply posts_launch|done].
  - left. destruct (mounted sys); [by apply posts_launch|done].
  - left. destruct (mounted sys); [by apply posts_launch|done].
  - left. by destruct (mounted sys).
  - left. destruct (mounted sys); [by apply posts_launch|done].
  - by left.
  - left. destruct (_ && _); [|done].
    apply posts_launch, (handlers_keep_posts _ _ [] (ErrString [])).
  - left. destruct (posts (ui sys) !! i) as [p|]; [|done].
    destruct (p !! js "id") as [[|postId|]|]; try done.
    destruct (_ && _); [|done].
    apply posts_launch, (handlers_keep_posts None initial_state postId (ErrString [])).
  - left. destruct (inflight sys !! i) as [[h n c k|h]|] eqn:Hi; try done.
    destruct (settle w n c) as [r|]; [|done].
    pose proof (Forall_lookup_1 _ _ _ _ Hinv Hi) as [_ Hk]. simpl in Hk.
    by rewrite posts_launch.
  - destruct (listeners sys !! h) as [[q [| |]]|]; try by left.
    unfold launch; simpl. destruct (mounted sys); [by right|by left].
  - left. destruct (listeners sys !! h) as [[q [| |]]|]; try done.
    rewrite posts_launch; [done|].
    apply (handlers_keep_posts None initial_state [] error).
  - left. by destruct (mounted sys).
  - left.
    apply (posts_launch w InlineImage (imageHandler_onchange (user sys) file') sys).
    by apply actions_satisfy_imageHandler.
Qed.

Lemma delivered_by_sorted sys ev :
  feed_inv sys → in_listener_order sys ev = true →
  Forall (fun ps => feed_sorted ps = true) (delivered_by sys ev).
Proof.
  intros (_ & (st & Hl & _) & _) Hev.
  destruct ev; simpl in *; try done.
  rewrite Hl in *. destruct handle as [|[|?]]; simpl in *; try done.
  destruct st; try done.
  constructor; [|done]. by apply in_query_order_sorted.
Qed.

Lemma sort_inv_step w sys ev :
  sort_inv sys → in_listener_order sys ev = true → sort_inv (step w sys ev).
Proof.
  intros (Hf & Ht & Hd & Hp) Hev.
  pose proof (delivered_by_sorted sys ev Hf Hev) as Hnew.
  split; [by apply feed_inv_step|].
  split; [by apply tasks_keep_posts_step|].
  split.
  - rewrite deliveries_step by done. by apply Forall_app.
  - destruct (posts_step w sys ev Ht) as [->|Heq]; [done|].
    rewrite Heq in Hnew. by apply Forall_inv in Hnew.
Qed.

Lemma sort_inv_run w evs sys :
  sort_inv sys → store_keeps_order w sys evs = true →
  sort_inv (run_events w sys evs).
Proof.
  revert sys. induction evs as [|ev evs IH]; intros sys Hinv Hord; [done|].
  simpl in Hord. apply andb_prop in Hord as [Hev Hrest].
  simpl. apply IH; [by apply sort_inv_step|done].
Qed.

(** C3. Provided the document store pushes each result set in the order of
    the listener's query, as its contract for a standing query says, every
    snapshot the subscription delivers, over any sequence of events since
    the mount, is sorted by [createdAt] descending with null entries before
    all timestamped ones; so is the list of posts the view holds. *)
Theorem feed_deliveries_sorted w u evs :
  store_keeps_order w (mount w u) evs = true →
  let sys := run_events w (mount w u) evs in
  Forall (fun ps => feed_sorted ps = true) (deliveries (history sys))
  ∧ feed_sorted (posts (ui sys)) = true.
Proof.
  intros Hord sys.
  assert (Hinit : sort_inv (mount w u)).
  { split; [apply feed_inv_mount|]. split; [by constructor|]. by split. }
  destruct (sort_inv_run w evs _ Hinit Hord) as (_ & _ & Hd & Hp). done.
Qed.

Lemma feed_deliveries_sorted_witness :
  let sys := run_events world_ok (mount world_ok (Some alice)) sample_session in
  store_keeps_order world_ok (mount world_ok (Some alice)) sample_session = true
  ∧ length (deliveries (history sys)) = 2%nat
  ∧ Forall (fun ps => feed_sorted ps = true) (deliveries (history sys))
  ∧ feed_sorted (posts (ui sys)) = true.
Proof.
  assert (H : store_keeps_order world_ok (mount world_ok (Some alice))
                sample_session = true) by (vm_compute; reflexivity).
  split; [exact H|]. split; [vm_compute; reflexivity|].
  exact (feed_deliveries_sorted world_ok (Some alice) sample_session H).
Defined.

(** *** C7: failure of the notification channel *)







(** *** C5: one submission at a time *)

Lemma holds_flag_finally m :
  actions_satisfy keeps_flag m →
  holds_flag true (finally m (SetIsSubmitting false ;;; Ret tt)).
Proof.
  induction m as [a|e| |a k IH|q k IH|c k IH]; simpl; try done.
  - intros [Ha Hk]. destruct a; simpl in *; auto; done.
  - auto.
  - auto.
Qed.

Lemma holds_flag_handleCreatePost b user t c cover :
  holds_flag b (handleCreatePost user t c cover).
Proof.
  unfold handleCreatePost. cbv zeta. simpl.
  destruct (_ || _ || is_null user); [done|].
  destruct user as [u|]; [|done].
  simpl. apply holds_flag_finally.
  apply actions_satisfy_try_catch.
  - apply actions_satisfy_bind.
    + destruct cover as [file|]; [|done].
      by apply (actions_satisfy_uploadImage keeps_flag (Some u) file).
    + intros url. simpl. intros [[]|e]; simpl; done.
  - intros e. simpl. split; [done|].
    destruct (is_permission_denied e); simpl; done.
Qed.

Lemma advance_holds_flag_task w b m n s :
  holds_flag b m →
  match waiting (advance w CreatePost m n s) with
  | Some t => task_holds_flag t ∧ is_submission t = true
  | None => True
  end.
Proof.
  revert b n s. induction m as [a|e| |a k IH|q k IH|c k IH]; intros b n s Hm;
    simpl in *; try done.
  - destruct a; simpl in *; by eapply IH.
  - by eapply IH.
  - by destruct Hm.
Qed.

Lemma advance_holds_flag_state w h m n s :
  holds_flag (isSubmitting s) m →
  is_Some (waiting (advance w h m n s)) →
  isSubmitting (reached (advance w h m n s)) = true.
Proof.
  revert n s. induction m as [a|e| |a k IH|q k IH|c k IH]; intros n s Hm;
    simpl in *.
  - by intros [? ?].
  - by intros [? ?].
  - done.
  - apply IH. by destruct a.
  - by apply IH.
  - by destruct Hm.
Qed.

Lemma advance_keeps_flag w h m n s :
  actions_satisfy keeps_flag m →
  isSubmitting (reached (advance w h m n s)) = isSubmitting s.
Proof.
  revert n s. induction m as [a|e| |a k IH|q k IH|c k IH]; intros n s Hm;
    simpl in *; try done.
  - destruct Hm as [Ha Hk]. rewrite IH by done. by destruct a.
  - by rewrite IH.
Qed.

Lemma filter_delete_other {A} (f : A → bool) l i t :
  l !! i = Some t → f t = false → List.filter f (delete i l) = List.filter f l.
Proof.
  revert i. induction l as [|x l IH]; intros [|i] Hi Hf; simpl in *; try done.
  - injection Hi as ->. by rewrite Hf.
  - by rewrite (IH i).
Qed.

Lemma filter_delete_only {A} (f : A → bool) l i t :
  l !! i = Some t → f t = true → (length (List.filter f l) ≤ 1)%nat →
  List.filter f (delete i l) = [].
Proof.
  revert i. induction l as [|x l IH]; intros [|i] Hi Hf Hlen; simpl in *; try done.
  - injection Hi as ->. rewrite Hf in Hlen. simpl in Hlen.
    destruct (List.filter f l); [done|simpl in Hlen; lia].
  - destruct (f x) eqn:Hx; simpl in Hlen.
    + assert (Hnil : List.filter f l = [])
        by (destruct (List.filter f l); [done|simpl in Hlen; lia]).
      assert (Hin : In t (List.filter f l))
        by (apply filter_In; split; [|done];
            apply list_elem_of_In, list_elem_of_lookup; eauto).
      rewrite Hnil in Hin. done.
    + by apply (IH i).
Qed.

Lemma filter_lookup_nonempty {A} (f : A → bool) l i t :
  l !! i = Some t → f t = true → List.filter f l ≠ [].
Proof.
  intros Hi Hf Hnil.
  assert (Hin : In t (List.filter f l))
    by (apply filter_In; split; [|done];
        apply list_elem_of_In, list_elem_of_lookup; eauto).
  by rewrite Hnil in Hin.
Qed.

Lemma launch_other_inv w h m sys :
  h ≠ CreatePost → actions_satisfy keeps_flag m →
  submit_inv sys → submit_inv (launch w h m sys).
Proof.
  intros Hh Hm (Ht & Hlen & Hflag).
  destruct (advance_within keeps_flag w h m (clock sys) (ui sys) Hm) as [_ Hw].
  pose proof (advance_keeps_flag w h m (clock sys) (ui sys) Hm) as Hs.
  assert (Hnew : Forall task_holds_flag (option_list (waiting (advance w h m (clock sys) (ui sys))))
                 ∧ List.filter is_submission
                     (option_list (waiting (advance w h m (clock sys) (ui sys)))) = []).
  { destruct (waiting _) as [t|]; simpl; [|done].
    destruct t as [h' n c k|h']; simpl in *.
    - destruct Hw as [-> Hk]. unfold is_submission; simpl.
      destruct h; try done; (split; [by constructor|done]).
    - subst h'. unfold is_submission; simpl.
      destruct h; try done; (split; [by constructor|done]). }
  destruct Hnew as [Hn1 Hn2].
  unfold submit_inv, submissions in *; simpl.
  rewrite List.filter_app, Hn2, app_nil_r.
  split; [by apply Forall_app|]. split; [done|].
  intros Hmnt. rewrite Hmnt, Hs. by apply Hflag.
Qed.

Lemma launch_create_inv w b m sys :
  holds_flag b m →
  (mounted sys = true → isSubmitting (ui sys) = b) →
  Forall task_holds_flag (inflight sys) →
  submissions sys = [] →
  submit_inv (launch w CreatePost m sys).
Proof.
  intros Hm Hb Ht Hnone.
  pose proof (advance_holds_flag_task w b m (clock sys) (ui sys) Hm) as Hw.
  unfold submit_inv, submissions in *; simpl.
  rewrite List.filter_app, Hnone. simpl.
  split; [|split].
  - apply Forall_app; split; [done|].
    destruct (waiting _) as [t|]; simpl; [|done].
    constructor; [by destruct Hw|done].
  - destruct (waiting _) as [t|]; simpl; [|lia].
    destruct (is_submission t); simpl; lia.
  - intros Hmnt Hne. rewrite Hmnt.
    apply advance_holds_flag_state; [by rewrite (Hb Hmnt)|].
    destruct (waiting _) as [t|]; [by eexists|done].
Qed.

Lemma submit_inv_mount w u : submit_inv (mount w u).
Proof. split; [by constructor|]. split; [simpl; lia|done]. Qed.

Lemma submit_inv_step w sys ev : submit_inv sys → submit_inv (step w sys ev).
Proof.
  intros Hinv. rewrite step_react.
  destruct ev as [v|v|file|url| |u| |i|i|h docs|h error| |file']; simpl.
  - destruct (mounted sys); [by apply launch_other_inv|done].
  - destruct (mounted sys); [by apply launch_other_inv|done].
  - destruct (mounted sys); [by apply launch_other_inv|done].
  - by apply launch_other_inv.
  - destruct (mounted sys); [by apply launch_other_inv|done].
  - done.
  - destruct (mounted sys && _) eqn:Hgo; [|done].
    apply andb_prop in Hgo as [Hmnt Hen].
    destruct Hinv as (Ht & Hlen & Hflag).
    assert (Hoff : isSubmitting (ui sys) = false).
    { unfold submit_disabled in Hen. by destruct (isSubmitting (ui sys)). }
    apply (launch_create_inv w false); [apply holds_flag_handleCreatePost|done|done|].
    destruct (submissions sys) eqn:Hs; [done|].
    rewrite Hflag in Hoff; done.
  - destruct (posts (ui sys) !! i) as [p|]; [|done].
    destruct (p !! js "id") as [[|postId|]|]; try done.
    destruct (_ && _); [|done].
    apply launch_other_inv; [done| |done].
    by apply actions_satisfy_handleDeletePost.
  - destruct (inflight sys !! i) as [[h n c k|h]|] eqn:Hi; try done.
    destruct (settle w n c) as [r|]; [|done].
    destruct Hinv as (Ht & Hlen & Hflag).
    pose proof (Forall_lookup_1 _ _ _ _ Ht Hi) as Hk.
    assert (Hrest : Forall task_holds_flag (delete i (inflight sys)))
      by by apply Forall_delete.
    assert (Hother : h ≠ CreatePost →
              submit_inv (launch w h (k r) (drop_task i sys [Answered c r]))).
    { intros Hh.
      assert (Hf : is_submission (Awaiting h n c k) = false)
        by (unfold is_submission; simpl; by destruct h).
      apply launch_other_inv; [done|by destruct h|].
      unfold submit_inv, submissions in *; simpl.
      by rewrite (filter_delete_other _ _ i _ Hi Hf). }
    destruct h; try (by apply Hother).
    simpl in Hk.
    apply (launch_create_inv w true); [done| |done|].
    + simpl. intros Hmnt. apply Hflag; [done|].
      by apply (filter_lookup_nonempty _ _ i (Awaiting CreatePost n c k)).
    + unfold submissions; simpl.
      by apply (filter_delete_only _ _ i (Awaiting CreatePost n c k)).
  - destruct (listeners sys !! h) as [[q [| |]]|]; try done.
    by apply launch_other_inv.
  - destruct (listeners sys !! h) as [[q [| |]]|]; try done.
    apply launch_other_inv; [done|by apply actions_satisfy_onError|done].
  - destruct (mounted sys); [|done].
    destruct Hinv as (Ht & Hlen & Hflag). by split.
  - apply launch_other_inv; [done| |done].
    by apply actions_satisfy_imageHandler.
Qed.

Lemma submit_inv_run w u evs : submit_inv (run_events w (mount w u) evs).
Proof.
  induction evs as [|ev evs IH] using rev_ind.
  - apply submit_inv_mount.
  - rewrite run_events_snoc. by apply submit_inv_step.
Qed.

(** C5. From the mount of the view on, whatever happens, at most one
    invocation of [handleCreatePost] is unfinished; and a submit request that
    arrives while [isSubmitting] is true, as it is whenever a submission is in
    flight in the mounted view, leaves the whole system as it was: nothing is
    uploaded, requested, changed or queued. *)
Theorem one_submission_in_flight w u evs :
  let sys := run_events w (mount w u) evs in
  (length (submissions sys) ≤ 1)%nat
  ∧ (mounted sys = true → submissions sys ≠ [] → isSubmitting (ui sys) = true)
  ∧ (isSubmitting (ui sys) = true → step w sys SubmitRequested = sys).
Proof.
  intros sys. destruct (submit_inv_run w u evs) as (_ & Hlen & Hflag).
  split; [done|]. split; [done|].
  intros Hon. rewrite step_react. simpl.
  unfold submit_disabled. rewrite Hon. simpl. by rewrite andb_false_r.
Qed.

Lemma one_submission_in_flight_witness :
  let sys := run_events world_ok (mount world_ok (Some alice)) submitting_session in
  length (submissions sys) = 1%nat
  ∧ isSubmitting (ui sys) = true
  ∧ step world_ok sys SubmitRequested = sys.
Proof.
  assert (H : isSubmitting
                (ui (run_events world_ok (mount world_ok (Some alice))
                       submitting_session)) = true) by reflexivity.
  split; [reflexivity|]. split; [exact H|].
  exact (proj2 (proj2 (one_submission_in_flight world_ok (Some alice)
                         submitting_session)) H).
Defined.

(** The gate is the submit button: the handler itself does not read
    [isSubmitting], and called directly it would create a second record. *)
Lemma handleCreatePost_does_not_read_isSubmitting w n u s :
  log (run w n (onSubmit u s) (setIsSubmitting true s))
  = log (run w n (onSubmit u s) s).
Proof. apply run_observation. Qed.

(** * Beyond the claims *)

(** ** [uploadImage] (lines 52-72) *)

(** The run of [uploadImage] for a signed-in user, case by case. *)
Lemma run_uploadImage w n u file s :
  let now := reply w n DateNow in
  let path := storage_path u now file in
  run w n (uploadImage (Some u) file) s
  = logged [Asked DateNow now]
      match settle w (S n) (UploadBytesResumable path file) with
      | None =>
          {| outcome := Pending; final := s;
             log := [Requested (UploadBytesResumable path file)];
             next := S (S n) |}
      | Some task =>
          logged ([Requested (UploadBytesResumable path file);
                   Answered (UploadBytesResumable path file) task]
                  ++ progress_obs (ticks task))
            match failure task with
            | Some e => rejected e (S (S n)) (progress_state (ticks task) s)
            | None =>
                match settle w (S (S n)) (GetDownloadURL path) with
                | Some (Resolved url) =>
                    logged [Requested (GetDownloadURL path);
                            Answered (GetDownloadURL path) (Resolved url)]
                      (fulfilled url (S (S (S n))) (progress_state (ticks task) s))
                | Some (RejectedWith e) =>
                    {| outcome := Pending;
                       final := progress_state (ticks task) s;
                       log := [Requested (GetDownloadURL path);
                               Answered (GetDownloadURL path) (RejectedWith e)];
                       next := S (S (S n)) |}
                | None =>
                    {| outcome := Pending;
                       final := progress_state (ticks task) s;
                       log := [Requested (GetDownloadURL path)];
                       next := S (S (S n)) |}
                end
            end
      end.
Proof.
  intros now path. unfold uploadImage. simpl. fold now. fold path.
  destruct (settle w (S n) _) as [task|]; [|done].
  rewrite run_report_progress.
  destruct (failure task) as [e|]; simpl; [done|].
  destruct (settle w (S (S n)) _) as [[url|e]|]; simpl; done.
Qed.

Lemma progress_obs_requests snapshots :
  requests (progress_obs snapshots) = []
  ∧ surfaced (progress_obs snapshots) = []
  ∧ embeds (progress_obs snapshots) = []
  ∧ upload_calls (progress_obs snapshots) = [].
Proof.
  induction snapshots as [|[b t] rest (IH1 & IH2 & IH3 & IH4)]; simpl; auto.
Qed.

Lemma progress_state_last snapshots s :
  uploadProgress (progress_state snapshots s)
  = default (uploadProgress s) ((fun bt => Percent bt.1 bt.2) <$> last snapshots).
Proof.
  revert s. induction snapshots as [|[b t] rest IH]; intros s; [done|].
  change (progress_state ((b, t) :: rest) s)
    with (progress_state rest (setUploadProgress (Percent b t) s)).
  rewrite IH. destruct rest as [|bt rest]; [done|].
  rewrite last_cons_cons.
  destruct (last_is_Some (bt :: rest)) as [_ [x ->]]; done.
Qed.

(** X1. When [uploadImage] rejects, and with what. Without a user it
    always rejects, with "No user authenticated", before anything else
    happens: no clock read, no request. With a user it rejects if and only
    if the upload task reports an error, then with that very error and
    without ever asking for a download URL. *)
Theorem uploadImage_rejection_cause w n user file s :
  let r := run w n (uploadImage user file) s in
  match user with
  | None =>
      outcome r = Rejected (ErrString (js "No user authenticated"))
      ∧ log r = []
  | Some u =>
      let upload :=
        UploadBytesResumable (storage_path u (reply w n DateNow) file) file in
      ∀ e,
        (outcome r = Rejected e
         ↔ ∃ task, settle w (S n) upload = Some task ∧ failure task = Some e)
        ∧ (outcome r = Rejected e → requests (log r) = [upload])
  end.
Proof.
  intros r. subst r. destruct user as [u|]; [|done].
  intros upload e. subst upload.
  rewrite run_uploadImage. cbv zeta.
  destruct (settle w (S n) _) as [task|] eqn:Hup.
  - destruct (progress_obs_requests (ticks task)) as (Hr & _).
    destruct (failure task) as [e'|] eqn:Hf.
    + simpl. split.
      * split.
        -- intros [= ->]. by exists task.
        -- intros (task' & Ht & Hf'). injection Ht as <-.
           rewrite Hf in Hf'. by injection Hf' as ->.
      * intros _. unfold requests in *. simpl. by rewrite omap_app, Hr.
    + split.
      * split.
        -- destruct (settle w (S (S n)) _) as [[url|e']|]; done.
        -- intros (task' & Ht & Hf'). injection Ht as <-.
           rewrite Hf in Hf'. discriminate Hf'.
      * destruct (settle w (S (S n)) _) as [[url|e']|]; done.
  - simpl. split; [split|]; try done. by intros (task & ? & _).
Qed.

Lemma uploadImage_rejection_cause_witness :
  let w := world_failing unavailable in
  let r := run w 0 (uploadImage (Some alice) cover_png) initial_state in
  let upload :=
    UploadBytesResumable (storage_path alice (reply w 0%nat DateNow) cover_png)
      cover_png in
  settle w 1 upload = Some {| ticks := [(0, 100); (42, 100)]; failure := Some unavailable |}
  ∧ outcome r = Rejected unavailable
  ∧ requests (log r) = [upload]
  ∧ outcome (run w 0 (uploadImage None cover_png) initial_state)
    = Rejected (ErrString (js "No user authenticated")).
Proof.
  assert (H : settle (world_failing unavailable) 1
                (UploadBytesResumable
                   (storage_path alice (reply (world_failing unavailable) 0%nat DateNow)
                      cover_png) cover_png)
              = Some {| ticks := [(0, 100); (42, 100)]; failure := Some unavailable |}) by reflexivity.
  destruct (uploadImage_rejection_cause (world_failing unavailable) 0 (Some alice)
              cover_png initial_state unavailable) as [[_ Hback] Hreq].
  assert (Ho := Hback (ex_intro _ _ (conj H eq_refl))).
  split; [exact H|]. split; [exact Ho|]. split; [exact (Hreq Ho)|].
  exact (proj1 (uploadImage_rejection_cause (world_failing unavailable) 0 None
                  cover_png initial_state)).
Defined.

Lemma uploadImage_fulfilled_inv w n user file s url :
  let r := run w n (uploadImage user file) s in
  outcome r = Fulfilled url →
  ∃ u task,
    let path := storage_path u (reply w n DateNow) file in
    user = Some u
    ∧ settle w (S n) (UploadBytesResumable path file) = Some task
    ∧ failure task = None
    ∧ settle w (S (S n)) (GetDownloadURL path) = Some (Resolved url)
    ∧ requests (log r) = [UploadBytesResumable path file; GetDownloadURL path]
    ∧ final r = progress_state (ticks task) s.
Proof.
  intros r. subst r. destruct user as [u|]; [|done].
  rewrite run_uploadImage. cbv zeta.
  destruct (settle w (S n) _) as [task|] eqn:Hup; [|done].
  destruct (progress_obs_requests (ticks task)) as (Hr & _).
  destruct (failure task) as [e'|] eqn:Hf; [done|].
  destruct (settle w (S (S n)) _) as [[url'|e']|] eqn:Hurl; try done.
  simpl. intros [= ->]. exists u, task.
  repeat split; try done.
  unfold requests in *. simpl. by rewrite omap_app, Hr.
Qed.

(** X2. [uploadImage] fulfils only with the URL that [getDownloadURL]
    returned for the path the file was uploaded to: one upload request, then
    one URL request for the same path, and the progress bar left at the last
    snapshot the task reported. *)
Theorem uploadImage_fulfilment w n user file s url :
  let r := run w n (uploadImage user file) s in
  outcome r = Fulfilled url →
  ∃ u task,
    let path := storage_path u (reply w n DateNow) file in
    user = Some u
    ∧ settle w (S n) (UploadBytesResumable path file) = Some task
    ∧ failure task = None
    ∧ settle w (S (S n)) (GetDownloadURL path) = Some (Resolved url)
    ∧ requests (log r) = [UploadBytesResumable path file; GetDownloadURL path]
    ∧ uploadProgress (final r)
      = default (uploadProgress s) ((fun bt => Percent bt.1 bt.2) <$> last (ticks task)).
Proof.
  intros r Ho.
  destruct (uploadImage_fulfilled_inv w n user file s url Ho)
    as (u & task & Hu & Hup & Hf & Hurl & Hr & Hfin).
  exists u, task. repeat split; try done.
  subst r. rewrite Hfin. apply progress_state_last.
Qed.

Lemma uploadImage_fulfilment_witness :
  let r := run world_ok 0 (uploadImage (Some alice) cover_png) initial_state in
  outcome r
  = Fulfilled (js "https://cdn.example/posts/u1/1700000000000_cover.png")
  ∧ uploadProgress (final r) = Percent 100 100.
Proof.
  assert (H : outcome (run world_ok 0 (uploadImage (Some alice) cover_png)
                         initial_state)
              = Fulfilled (js "https://cdn.example/posts/u1/1700000000000_cover.png"))
    by reflexivity.
  split; [exact H|].
  destruct (uploadImage_fulfilment world_ok 0 (Some alice) cover_png initial_state _ H)
    as (u & task & Hu & Ht & _ & _ & _ & Hp).
  injection Hu as <-. injection Ht as <-. exact Hp.
Defined.

(** *** The destination path *)

Lemma digits_delimited d1 d2 r1 r2 :
  digits d1 ++ 95 :: r1 = digits d2 ++ 95 :: r2 → d1 = d2 ∧ r1 = r2.
Proof.
  revert d2. induction d1 as [|d1 IH|d1 IH|d1 IH|d1 IH|d1 IH|d1 IH|d1 IH|d1 IH|d1 IH|d1 IH];
    intros [|d2|d2|d2|d2|d2|d2|d2|d2|d2|d2]; simpl; intros H;
    try discriminate H;
    try (injection H as H; destruct (IH _ H) as [-> ->]; done).
  by injection H as ->.
Qed.

(** X3. For one user, the storage path tells apart any two uploads that
    differ in their time stamp or in their file name, and nothing else keeps
    them apart: the same name in the same millisecond gives the same path. *)
Theorem storage_path_collides_iff u now file now' file' :
  storage_path u now file = storage_path u now' file'
  ↔ now = now' ∧ name file = name file'.
Proof.
  unfold storage_path. split; [|by intros [-> ->]].
  intros H.
  do 3 apply app_inv_head in H. unfold number_to_string in H.
  change (js "_" ++ name file) with (95 :: name file) in H.
  change (js "_" ++ name file') with (95 :: name file') in H.
  apply digits_delimited in H as [Hd Hn].
  split; [|done]. by apply DecimalN.Unsigned.to_uint_inj.
Qed.

(** ** [handleCreatePost] (lines 169-207), every path *)

Lemma gate_cases (user : option User) s :
  (invalid_input s ∨ user = None) ∨ (valid_input s ∧ ∃ u, user = Some u).
Proof.
  destruct user as [u|]; [|by left; right].
  destruct (decide (trim (title s) = [])) as [Ht|Ht]; [by left; left; left|].
  destruct (decide (content s = [])) as [Hc|Hc]; [by left; left; right; left|].
  destruct (decide (content s = EMPTY_DOCUMENT)) as [Hd|Hd];
    [by left; left; right; right|].
  right. split; [done|by exists u].
Qed.

Opaque uploadImage.

(** The run of [handleCreatePost] past its gate, by the way the cover step
    and [addDoc] end. *)
Lemma onSubmit_cases w n u s :
  valid_input s →
  let s3 := setPermissionError None (setIsSubmitting true s) in
  let R := run w n (cover_step (Some u) s) s3 in
  run w n (onSubmit (Some u) s) s
  = logged (entry_obs ++ log R)
      match outcome R with
      | Pending =>
          {| outcome := Pending; final := final R; log := []; next := next R |}
      | Rejected e =>
          logged (catch_obs e ++ [Did (SetIsSubmitting false)])
            (fulfilled tt (next R) (setIsSubmitting false (catch_state e (final R))))
      | Fulfilled url =>
          let add := AddDoc (js "posts") (record_for u s url) in
          match settle w (next R) add with
          | None =>
              {| outcome := Pending; final := final R;
                 log := [Requested add]; next := S (next R) |}
          | Some (Resolved x) =>
              logged ([Requested add; Answered add (Resolved x)]
                      ++ reset_obs ++ [Did (SetIsSubmitting false)])
                (fulfilled tt (S (next R))
                   (setIsSubmitting false (reset_state (final R))))
          | Some (RejectedWith e) =>
              logged ([Requested add; Answered add (RejectedWith e)]
                      ++ catch_obs e ++ [Did (SetIsSubmitting false)])
                (fulfilled tt (S (next R))
                   (setIsSubmitting false (catch_state e (final R))))
          end
      end.
Proof.
  intros Hv s3 R.
  unfold onSubmit, handleCreatePost. cbv zeta.
  rewrite (gate_open _ _ Hv).
  change (match featuredImage s with
          | Some file => uploadImage (Some u) file
          | None => Ret []
          end) with (cover_step (Some u) s).
  cbn [run]. rewrite !logged_logged.
  rewrite run_finally, run_try_catch, run_bind.
  cbn [apply_action]. fold s3. fold R.
  unfold record_for, catch_obs, catch_state, reset_obs, reset_state, entry_obs.
  destruct (outcome R) as [url|e|] eqn:Ho.
  - rewrite (continue_fulfilled R url) by done.
    rewrite !continue_logged. simpl.
    destruct (settle w (next R) _) as [[x|e]|]; unfold continue; simpl.
    + unfold logged; simpl. rewrite ?app_nil_r; done.
    + destruct (is_permission_denied e); unfold logged; simpl;
        rewrite ?app_nil_r; done.
    + unfold logged; simpl. done.
  - rewrite (continue_rejected R e) by done.
    rewrite !continue_logged. unfold continue; simpl.
    destruct (is_permission_denied e); unfold logged; simpl;
      rewrite ?app_nil_r; done.
  - rewrite (continue_pending R) by done.
    unfold continue; simpl. unfold logged; simpl. rewrite ?app_nil_r; done.
Qed.

Transparent uploadImage.

Lemma uploadImage_surfaces_nothing w n user file s :
  surfaced (log (run w n (uploadImage user file) s)) = []
  ∧ embeds (log (run w n (uploadImage user file) s)) = [].
Proof.
  destruct user as [u|]; [|done].
  rewrite run_uploadImage. cbv zeta.
  destruct (settle w (S n) _) as [task|]; [|done].
  destruct (progress_obs_requests (ticks task)) as (_ & Hs & He & _).
  unfold surfaced, embeds in *.
  destruct (failure task) as [e|]; simpl.
  { by rewrite !omap_app, Hs, He. }
  destruct (settle w (S (S n)) _) as [[url|e]|]; simpl;
    by rewrite !omap_app, Hs, He.
Qed.

Lemma cover_step_facts w n u s s' :
  let R := run w n (cover_step (Some u) s) s' in
  creation_calls (log R) = []
  ∧ committed (log R) = []
  ∧ errors_logged (log R) = []
  ∧ surfaced (log R) = []
  ∧ ∃ p, final R = setUploadProgress p s'.
Proof.
  unfold cover_step. destruct (featuredImage s) as [file|].
  - destruct (uploadImage_run_shape w n (Some u) file s') as (H1 & H2 & H3 & _ & H5).
    destruct (uploadImage_surfaces_nothing w n (Some u) file s') as [H4 _].
    done.
  - simpl. repeat split. exists (uploadProgress s'). by destruct s'.
Qed.

Lemma catch_obs_reads e :
  requests (catch_obs e) = []
  ∧ creation_calls (catch_obs e) = []
  ∧ errors_logged (catch_obs e) = [e]
  ∧ surfaced (catch_obs e) = [if is_permission_denied e then WRITE_DENIED else SAVE_FAILED].
Proof. unfold catch_obs. by destruct (is_permission_denied e). Qed.

(** *** What the stored title looks like *)

Lemma trimStart_head s :
  match head (trimStart s) with
  | Some c => is_white_space c = false
  | None => True
  end.
Proof.
  induction s as [|c s IH]; [done|]. simpl.
  destruct (is_white_space c) eqn:Hc; [done|]. simpl. done.
Qed.

Lemma trimStart_suffix s : ∃ p, s = p ++ trimStart s.
Proof.
  induction s as [|c s [p IH]]; [by exists []|]. simpl.
  destruct (is_white_space c).
  - exists (c :: p). simpl. by f_equal.
  - by exists [].
Qed.

Lemma trim_edge_clean s : edge_clean (trim s).
Proof.
  unfold edge_clean, trim, trimEnd.
  set (t := trimStart s).
  rewrite !rev_alt.
  change (rev_append (trimStart (rev_append t [])) [])
    with (reverse (trimStart (reverse t))).
  rewrite head_reverse, last_reverse. split; [|apply trimStart_head].
  destruct (trimStart_suffix (reverse t)) as [p Hp].
  destruct (last (trimStart (reverse t))) as [c|] eqn:Hl; [|done].
  apply last_Some in Hl as [l' Hl]. rewrite Hl in Hp.
  assert (Ht : t = c :: reverse l' ++ reverse p).
  { rewrite <- (reverse_involutive t), Hp.
    by rewrite reverse_app, reverse_app. }
  pose proof (trimStart_head s) as Hh. fold t in Hh.
  by rewrite Ht in Hh.
Qed.

Lemma author_email_nonempty u : author_email u ≠ [].
Proof. unfold author_email. by destruct (email u) as [[|c e]|]. Qed.

Opaque uploadImage.

(** X4. With a cover whose upload resolves to [url], a valid submission
    issues exactly three requests in this order: the upload, the download
    URL for the same path, then one [addDoc] whose image field is [url] and
    whose other fields are those of the form and the user. *)
Theorem createPost_cover_url_in_record w n u s file url :
  valid_input s →
  featuredImage s = Some file →
  outcome (run w n (uploadImage (Some u) file) s) = Fulfilled url →
  let path := storage_path u (reply w n DateNow) file in
  requests (log (run w n (onSubmit (Some u) s) s))
  = [UploadBytesResumable path file; GetDownloadURL path;
     AddDoc (js "posts") (record_for u s url)].
Proof.
  intros Hv Hf Hup path.
  rewrite (onSubmit_cases w n u s Hv). cbv zeta.
  set (s3 := setPermissionError None (setIsSubmitting true s)).
  unfold cover_step. rewrite Hf.
  destruct (run_observation w (uploadImage (Some u) file) n s s3) as (Ho & _ & _).
  rewrite Hup in Ho. symmetry in Ho.
  destruct (uploadImage_fulfilled_inv w n (Some u) file s3 url Ho)
    as (u' & task & [= <-] & _ & _ & _ & Hr & _).
  rewrite Ho. fold path in Hr.
  unfold requests in *.
  destruct (settle w _ _) as [[x|e]|]; unfold logged; cbn [log fulfilled];
    rewrite !omap_app, Hr; [done| |done].
  destruct (catch_obs_reads e) as (Hc & _). unfold requests in Hc.
  by rewrite Hc.
Qed.

Transparent uploadImage.

Lemma createPost_cover_url_in_record_witness :
  let s := draft_with_cover "Sunset" "<p>Hello</p>" in
  let url := js "https://cdn.example/posts/u1/1700000000000_cover.png" in
  let path := storage_path alice (reply world_ok 0%nat DateNow) cover_png in
  valid_input s
  ∧ outcome (run world_ok 0 (uploadImage (Some alice) cover_png) s) = Fulfilled url
  ∧ requests (log (run world_ok 0 (onSubmit (Some alice) s) s))
    = [UploadBytesResumable path cover_png; GetDownloadURL path;
       AddDoc (js "posts") (record_for alice s url)].
Proof.
  assert (Hv : valid_input (draft_with_cover "Sunset" "<p>Hello</p>"))
    by (repeat split; vm_compute; discriminate).
  split; [exact Hv|]. split; [reflexivity|].
  exact (createPost_cover_url_in_record world_ok 0 alice
           (draft_with_cover "Sunset" "<p>Hello</p>") cover_png _
           Hv eq_refl eq_refl).
Defined.

Lemma log_logged {A} l (r : Result A) : log (logged l r) = l ++ log r.
Proof. done. Qed.

Opaque uploadImage.

Lemma onSubmit_creation_calls w n u s :
  valid_input s →
  creation_calls (log (run w n (onSubmit (Some u) s) s))
  = match outcome (run w n (cover_step (Some u) s) s) with
    | Fulfilled url => [record_for u s url]
    | _ => []
    end.
Proof.
  intros Hv. rewrite (onSubmit_cases w n u s Hv). cbv zeta.
  set (s3 := setPermissionError None (setIsSubmitting true s)).
  destruct (run_observation w (cover_step (Some u) s) n s s3) as (-> & _ & _).
  destruct (cover_step_facts w n u s s3) as (Hc & _).
  set (R := run w n (cover_step (Some u) s) s3) in *.
  unfold creation_calls in *. rewrite log_logged, !omap_app, Hc.
  destruct (outcome R) as [url|e|]; [| |done].
  - cbv zeta. destruct (settle w (next R) _) as [[x|e]|]; try done.
    rewrite log_logged, !omap_app.
    destruct (catch_obs_reads e) as (_ & He & _). unfold creation_calls in He.
    by rewrite He.
  - rewrite log_logged, !omap_app.
    destruct (catch_obs_reads e) as (_ & He & _). unfold creation_calls in He.
    by rewrite He.
Qed.

(** X5. Whatever the world, the form and the user, one invocation of
    [handleCreatePost] makes at most one record-creation call, and every
    record it sends is well formed: its title is the trimmed form title, not
    empty and without white space at either end; its content is neither
    empty nor the empty document; its author is the signed-in user, with a
    non-empty display address. *)
Theorem createPost_records_are_well_formed w n user s :
  let calls := creation_calls (log (run w n (onSubmit user s) s)) in
  (length calls ≤ 1)%nat
  ∧ Forall (fun d => ∃ u url,
              user = Some u ∧ d = record_for u s url
              ∧ PostData.title d ≠ [] ∧ edge_clean (PostData.title d)
              ∧ PostData.content d ≠ []
              ∧ PostData.content d ≠ EMPTY_DOCUMENT
              ∧ PostData.authorId d = uid u
              ∧ PostData.authorEmail d ≠ []) calls.
Proof.
  intros calls. subst calls.
  destruct (gate_cases user s) as [Hclosed|[Hv [u ->]]].
  - rewrite onSubmit_blocked by done. simpl. split; [lia|apply Forall_nil_2].
  - rewrite onSubmit_creation_calls by done.
    destruct (outcome _) as [url|e|]; simpl;
      try (split; [lia|apply Forall_nil_2]).
    split; [lia|]. apply Forall_singleton.
    destruct Hv as (Ht & Hc & Hd).
    exists u, url. repeat split; try done.
    + apply trim_edge_clean.
    + apply trim_edge_clean.
    + apply author_email_nonempty.
Qed.

Lemma uploadImage_leaves_permissionError w n user file s :
  permission_updates (log (run w n (uploadImage user file) s)) = [].
Proof.
  destruct user as [u|]; [|done].
  rewrite run_uploadImage. cbv zeta.
  assert (Hp : ∀ snapshots, omap permission_of (progress_obs snapshots) = []).
  { intros snapshots. by induction snapshots as [|[b t] rest IH]. }
  unfold permission_updates.
  destruct (settle w (S n) _) as [task|]; [|done].
  destruct (failure task) as [e|]; simpl.
  { by rewrite !omap_app, Hp. }
  destruct (settle w (S (S n)) _) as [[url|e]|]; simpl;
    by rewrite !omap_app, Hp.
Qed.

(** X6. How a run of [handleCreatePost] reports a failure. Its [catch]
    block runs at most once. When it did not run, the handler raised no
    alert and called [setPermissionError] at most to clear it. When it ran
    with an error whose code is [permission-denied], the handler raised no
    alert and stored the "Write Denied" message in [permissionError], after
    having cleared it on entry. When it ran with any other error, the
    handler raised the single "Failed to save post" alert and left
    [permissionError] cleared. *)
Theorem createPost_failure_report w n user s :
  let r := run w n (onSubmit user s) s in
  match errors_logged (log r) with
  | [] =>
      alerts (log r) = []
      ∧ Forall (fun v => v = None) (permission_updates (log r))
  | [e] =>
      if is_permission_denied e
      then alerts (log r) = []
           ∧ permission_updates (log r) = [None; Some WRITE_DENIED]
           ∧ permissionError (final r) = Some WRITE_DENIED
      else alerts (log r) = [SAVE_FAILED]
           ∧ permission_updates (log r) = [None]
           ∧ permissionError (final r) = None
  | _ => False
  end.
Proof.
  intros r. subst r.
  destruct (gate_cases user s) as [Hclosed|[Hv [u ->]]].
  { rewrite onSubmit_blocked by done. simpl. by split. }
  rewrite (onSubmit_cases w n u s Hv). cbv zeta.
  set (s3 := setPermissionError None (setIsSubmitting true s)).
  destruct (cover_step_facts w n u s s3) as (_ & _ & He & _ & p & Hfin).
  assert (Ha : alerts (log (run w n (cover_step (Some u) s) s3)) = []).
  { unfold cover_step. destruct (featuredImage s) as [file|]; [|done].
    by destruct (uploadImage_run_shape w n (Some u) file s3) as (_ & _ & _ & H & _). }
  assert (Hs : permission_updates (log (run w n (cover_step (Some u) s) s3)) = []).
  { unfold cover_step. destruct (featuredImage s) as [file|]; [|done].
    apply uploadImage_leaves_permissionError. }
  set (R := run w n (cover_step (Some u) s) s3) in *.
  unfold errors_logged, permission_updates, alerts in *.
  assert (Hcatch : ∀ e,
    omap error_of (catch_obs e) = [e]
    ∧ omap permission_of (catch_obs e)
      = (if is_permission_denied e then [Some WRITE_DENIED] else [])
    ∧ omap alert_of (catch_obs e)
      = (if is_permission_denied e then [] else [SAVE_FAILED])).
  { intros e. unfold catch_obs. by destruct (is_permission_denied e). }
  rewrite !log_logged, !omap_app, He, Hs, Ha.
  destruct (outcome R) as [url|e|].
  - cbv zeta. destruct (settle w (next R) _) as [[x|e]|].
    + simpl. split; [done|]. by repeat constructor.
    + rewrite !log_logged, !omap_app.
      destruct (Hcatch e) as (-> & -> & ->). simpl.
      unfold catch_state. rewrite Hfin.
      by destruct (is_permission_denied e).
    + simpl. split; [done|]. by repeat constructor.
  - rewrite !log_logged, !omap_app.
    destruct (Hcatch e) as (-> & -> & ->). simpl.
    unfold catch_state. rewrite Hfin.
    by destruct (is_permission_denied e).
  - simpl. split; [done|]. by repeat constructor.
Qed.

(** X7. While the cover step is pending, the submission is pending too: it
    has made no record-creation call, has surfaced and logged nothing, and
    [isSubmitting] is still true. The cover step stays pending for good when
    the upload completes but [getDownloadURL] is refused, since nothing then
    settles the promise of [uploadImage]. *)
Theorem createPost_stalls_with_cover w n u s file :
  valid_input s →
  featuredImage s = Some file →
  outcome (run w n (uploadImage (Some u) file) s) = Pending →
  let r := run w n (onSubmit (Some u) s) s in
  outcome r = Pending
  ∧ isSubmitting (final r) = true
  ∧ creation_calls (log r) = []
  ∧ surfaced (log r) = []
  ∧ errors_logged (log r) = [].
Proof.
  intros Hv Hf Hup r. subst r.
  rewrite (onSubmit_cases w n u s Hv). cbv zeta.
  set (s3 := setPermissionError None (setIsSubmitting true s)).
  destruct (cover_step_facts w n u s s3) as (Hc & _ & He & Hs & p & Hfin).
  assert (Ho : outcome (run w n (cover_step (Some u) s) s3) = Pending).
  { unfold cover_step. rewrite Hf.
    destruct (run_observation w (uploadImage (Some u) file) n s s3) as (Ho & _ & _).
    by rewrite <- Ho. }
  set (R := run w n (cover_step (Some u) s) s3) in *.
  rewrite Ho. unfold creation_calls, surfaced, errors_logged in *.
  rewrite !log_logged, !omap_app, Hc, He, Hs. cbn [outcome final logged log].
  by rewrite Hfin.
Qed.

Transparent uploadImage.

Lemma createPost_stalls_with_cover_witness :
  let s := draft_with_cover "Sunset" "<p>Hello</p>" in
  let w := world_no_url unavailable in
  let r := run w 0 (onSubmit (Some alice) s) s in
  outcome (run w 0 (uploadImage (Some alice) cover_png) s) = Pending
  ∧ outcome r = Pending
  ∧ isSubmitting (final r) = true
  ∧ creation_calls (log r) = []
  ∧ surfaced (log r) = []
  ∧ errors_logged (log r) = [].
Proof.
  assert (Hv : valid_input (draft_with_cover "Sunset" "<p>Hello</p>"))
    by (repeat split; vm_compute; discriminate).
  split; [reflexivity|].
  exact (createPost_stalls_with_cover (world_no_url unavailable) 0 alice
           (draft_with_cover "Sunset" "<p>Hello</p>") cover_png Hv eq_refl eq_refl).
Defined.

(** X8. When the upload task completes but [getDownloadURL] is refused,
    [uploadImage] neither fulfils nor rejects: the refusal is lost inside the
    completion observer and the promise stays pending. *)
Theorem uploadImage_never_settles_when_url_refused w n u file s task e :
  let path := storage_path u (reply w n DateNow) file in
  settle w (S n) (UploadBytesResumable path file) = Some task →
  failure task = None →
  settle w (S (S n)) (GetDownloadURL path) = Some (RejectedWith e) →
  let r := run w n (uploadImage (Some u) file) s in
  outcome r = Pending
  ∧ requests (log r) = [UploadBytesResumable path file; GetDownloadURL path]
  ∧ errors_logged (log r) = [].
Proof.
  intros path Hup Hf Hurl r. subst r.
  rewrite run_uploadImage. cbv zeta. fold path. rewrite Hup, Hf, Hurl.
  destruct (progress_obs_requests (ticks task)) as (Hr & _).
  destruct (progress_obs_silent (ticks task)) as (_ & _ & He & _).
  unfold requests, errors_logged in *.
  split; [done|]. rewrite !log_logged, !omap_app, Hr, He. done.
Qed.

Lemma uploadImage_never_settles_when_url_refused_witness :
  let w := world_no_url permission_denied in
  let r := run w 0 (uploadImage (Some alice) cover_png) initial_state in
  outcome r = Pending ∧ errors_logged (log r) = [].
Proof.
  pose proof (uploadImage_never_settles_when_url_refused
                (world_no_url permission_denied) 0 alice cover_png initial_state
                _ permission_denied eq_refl eq_refl eq_refl) as (H1 & _ & H3).
  split; [exact H1|exact H3].
Defined.

(** ** [handleDeletePost] (lines 209-217) *)

(** X9. [handleDeletePost] never changes the component state, whatever
    happens. If the user declines the confirmation it issues no request and
    no alert. If the user confirms it issues exactly one [deleteDoc], for the
    given id in the posts collection, and alerts exactly when that request
    is refused. *)
Theorem deletePost_behaviour w n postId s :
  let r := run w n (handleDeletePost postId) s in
  let confirmed := reply w n (WindowConfirm CONFIRM_DELETE) in
  final r = s
  ∧ requests (log r)
    = (if confirmed then [DeleteDoc (js "posts") postId] else [])
  ∧ alerts (log r)
    = (if confirmed
       then match settle w (S n) (DeleteDoc (js "posts") postId) with
            | Some (RejectedWith _) => [DELETE_DENIED]
            | _ => []
            end
       else []).
Proof.
  intros r confirmed. subst r confirmed.
  unfold handleDeletePost, CONFIRM_DELETE. simpl.
  destruct (reply w n _); simpl; [|done].
  destruct (settle w (S n) _) as [[x|e]|]; simpl; done.
Qed.

(** ** The inline image handler (lines 75-98) *)

Lemma requests_satisfy_bind {A B} Q (m : Async A) (f : A → Async B) :
  requests_satisfy Q m → (∀ a, requests_satisfy Q (f a)) →
  requests_satisfy Q (bind m f).
Proof.
  intros Hm Hf. induction m as [a|e| |a k IH|q k IH|c k IH]; simpl in *; auto.
  destruct Hm; auto.
Qed.

Lemma requests_satisfy_try_catch {A} Q (m : Async A) h :
  requests_satisfy Q m → (∀ e, requests_satisfy Q (h e)) →
  requests_satisfy Q (try_catch m h).
Proof.
  intros Hm Hh. induction m as [a|e| |a k IH|q k IH|c k IH]; simpl in *; auto.
  destruct Hm; auto.
Qed.

Lemma requests_satisfy_uploadImage user file :
  requests_satisfy is_storage_request (uploadImage user file).
Proof.
  destruct user as [u|]; simpl; [|done].
  intros now. split; [done|]. intros task.
  induction (ticks task) as [|[b t] rest IH]; simpl; [|done].
  destruct (failure task); simpl; [done|]. split; [done|]. by intros [url|e].
Qed.

Lemma run_requests_satisfy {A} Q w n (m : Async A) s :
  requests_satisfy Q m → Forall Q (requests (log (run w n m s))).
Proof.
  revert n s. induction m as [a|e| |a k IH|q k IH|c k IH]; intros n s Hm;
    simpl in *; try by constructor.
  - by apply IH.
  - by apply IH.
  - destruct Hm as [Hc Hk].
    destruct (settle w n c) as [r|]; simpl.
    + constructor; [done|]. by apply IH.
    + by repeat constructor.
Qed.

Lemma run_state_updates {A} (P : Action → Prop) w n (m : Async A) s :
  actions_satisfy P m →
  Forall (fun a => P a ∧ update_of (Did a) = Some a)
    (state_updates (log (run w n m s))).
Proof.
  revert n s. induction m as [a|e| |a k IH|q k IH|c k IH]; intros n s Hm;
    simpl in *; try by constructor.
  - destruct Hm as [Ha Hk]. specialize (IH n (apply_action a s) Hk).
    unfold state_updates in *.
    destruct a; simpl; try done; by constructor.
  - by apply IH.
  - destruct (settle w n c) as [r|]; simpl; [by apply IH|by constructor].
Qed.

Lemma run_never_rejects_try_catch {A} w n (m : Async A) h s :
  (∀ e n' s', ∀ e', outcome (run w n' (h e) s') ≠ Rejected e') →
  ∀ e', outcome (run w n (try_catch m h) s) ≠ Rejected e'.
Proof.
  intros Hh e'. rewrite run_try_catch. unfold continue.
  destruct (outcome (run w n m s)) as [a|e|] eqn:Ho; simpl; done.
Qed.

(** X10. Inserting an inline image never creates or deletes a post: the
    handler talks to storage only. The only state setter it calls is
    [setUploadProgress]: it never writes the title, the content, the cover,
    the submitting flag or the posts itself, and what it adds to the draft
    goes through the editor's [insertEmbed]. It never throws, since its
    [catch] block handles every rejection of the upload. *)
Theorem inlineImage_writes_progress_only w n user file s :
  let r := run w n (imageHandler_onchange user file) s in
  Forall is_storage_request (requests (log r))
  ∧ Forall is_progress_update (state_updates (log r))
  ∧ ∀ e, outcome r ≠ Rejected e.
Proof.
  intros r. subst r. split; [|split].
  - apply run_requests_satisfy. unfold imageHandler_onchange.
    apply requests_satisfy_try_catch; [|done].
    apply requests_satisfy_bind; [apply requests_satisfy_uploadImage|].
    intros url. simpl. by intros [range|].
  - eapply Forall_impl.
    + apply (run_state_updates keeps_draft). by apply actions_satisfy_imageHandler.
    + intros a [Ha Hu]. by destruct a.
  - apply run_never_rejects_try_catch. done.
Qed.

Opaque uploadImage.

(** X11. After an upload that resolves to [url] the handler embeds that URL
    once, at the index of the editor's selection or at 0 when there is no
    selection, and resets the progress bar to 0, without any alert. When no
    editor is mounted it embeds nothing and leaves the progress bar where the
    upload left it. *)
Theorem inlineImage_embeds_uploaded_url w n user file s url :
  let R := run w n (uploadImage user file) s in
  let r := run w n (imageHandler_onchange user file) s in
  outcome R = Fulfilled url →
  outcome r = Fulfilled tt
  ∧ alerts (log r) = []
  ∧ match reply w (next R) EditorSelection with
    | Some range =>
        embeds (log r) = [(default 0 range, url)]
        ∧ uploadProgress (final r) = Zero
    | None =>
        embeds (log r) = [] ∧ uploadProgress (final r) = uploadProgress (final R)
    end.
Proof.
  intros R r Ho. subst r. unfold imageHandler_onchange.
  rewrite run_try_catch, run_bind. fold R.
  destruct (uploadImage_run_shape w n user file s) as (_ & _ & _ & Ha & _).
  destruct (uploadImage_surfaces_nothing w n user file s) as [_ He].
  fold R in Ha, He.
  rewrite (continue_fulfilled R url) by done.
  rewrite continue_logged. unfold alerts, embeds in *.
  cbn [run]. rewrite continue_logged, !log_logged, !omap_app, Ha, He.
  destruct (reply w (next R) EditorSelection) as [range|]; simpl; done.
Qed.

(** X12. After an upload that rejects with [e] the handler logs [e], shows
    the single alert "Failed to upload image to editor.", embeds nothing, and
    returns normally. *)
Theorem inlineImage_failure_alerts w n user file s e :
  let r := run w n (imageHandler_onchange user file) s in
  outcome (run w n (uploadImage user file) s) = Rejected e →
  outcome r = Fulfilled tt
  ∧ errors_logged (log r) = [e]
  ∧ alerts (log r) = [EMBED_FAILED]
  ∧ embeds (log r) = [].
Proof.
  intros r Ho. subst r. unfold imageHandler_onchange.
  rewrite run_try_catch, run_bind.
  destruct (uploadImage_run_shape w n user file s) as (_ & _ & Herr & Ha & _).
  destruct (uploadImage_surfaces_nothing w n user file s) as [_ He].
  set (R := run w n (uploadImage user file) s) in *.
  rewrite (continue_rejected R e) by done.
  rewrite continue_logged. unfold alerts, embeds, errors_logged in *.
  unfold continue; simpl. rewrite !omap_app, Ha, He, Herr. done.
Qed.

Transparent uploadImage.

Lemma inlineImage_embeds_uploaded_url_witness :
  let r := run world_ok 0 (imageHandler_onchange (Some alice) cover_png)
             (draft "Sunset" "<p>Hello</p>") in
  embeds (log r)
  = [(7, js "https://cdn.example/posts/u1/1700000000000_cover.png")]
  ∧ uploadProgress (final r) = Zero.
Proof.
  pose proof (inlineImage_embeds_uploaded_url world_ok 0 (Some alice) cover_png
                (draft "Sunset" "<p>Hello</p>") _ eq_refl) as (_ & _ & H).
  exact H.
Defined.

Lemma inlineImage_failure_alerts_witness :
  let r := run (world_failing unavailable) 0
             (imageHandler_onchange (Some alice) cover_png) initial_state in
  outcome r = Fulfilled tt ∧ errors_logged (log r) = [unavailable]
  ∧ alerts (log r) = [EMBED_FAILED] ∧ embeds (log r) = [].
Proof.
  exact (inlineImage_failure_alerts (world_failing unavailable) 0 (Some alice)
           cover_png initial_state unavailable eq_refl).
Defined.

(** ** The snapshot observer's object spread (lines 129-132) *)

(** X13. A post carries every field of its document unchanged. Its [id] is
    the document id only when the document data has no field named [id]: a
    data field of that name overrides it, since the spread comes second. *)
Theorem toPost_fields d k :
  toPost d !! k
  = match doc_data d !! k with
    | Some v => Some v
    | None => if decide (k = js "id") then Some (VString (doc_id d)) else None
    end.
Proof.
  unfold toPost. rewrite lookup_union.
  destruct (doc_data d !! k) as [v|] eqn:Hk; simpl.
  - by destruct ({[js "id" := VString (doc_id d)]} !! k).
  - destruct (decide (k = js "id")) as [->|Hne].
    + by rewrite lookup_singleton_eq.
    + by rewrite lookup_singleton_ne.
Qed.

(** ** The event loop, beyond the claims *)

(** X14. The list of posts on screen changes by a snapshot only: creating a
    post, deleting one, typing, uploading, a failing feed channel or
    unmounting never touch it. *)
Theorem posts_change_only_by_snapshot w u evs evs' :
  Forall (fun ev => is_snapshot ev = false) evs' →
  let sys := run_events w (mount w u) evs in
  posts (ui (run_events w sys evs')) = posts (ui sys).
Proof.
  intros Hno sys. subst sys.
  induction evs' as [|ev evs' IH] using rev_ind; [done|].
  apply Forall_app in Hno as [Hno Hev]. apply Forall_inv in Hev.
  rewrite run_events_snoc, <- run_events_app.
  destruct (posts_step w (run_events w (mount w u) (evs ++ evs')) ev
              (tasks_keep_posts_run w u (evs ++ evs'))) as [->|Hd].
  - rewrite run_events_app. by apply IH.
  - by destruct ev.
Qed.

Lemma posts_change_only_by_snapshot_witness :
  let sys := run_events world_ok (mount world_ok (Some alice))
               [SnapshotArrives 0 sample_feed] in
  posts (ui (run_events world_ok sys submitting_session)) = posts (ui sys).
Proof.
  assert (H : Forall (fun ev => is_snapshot ev = false) submitting_session)
    by (repeat constructor).
  exact (posts_change_only_by_snapshot world_ok (Some alice)
           [SnapshotArrives 0 sample_feed] submitting_session H).
Defined.

(** *** A stalled submission *)

Lemma stalled_survives_delete (l : list Task) i t h :
  l !! i = Some t → (∀ h', t ≠ Stalled h') → Stalled h ∈ l → Stalled h ∈ delete i l.
Proof.
  revert i. induction l as [|x l IH]; intros [|i] Hi Ht Hin; simpl in *; try done.
  - injection Hi as ->. apply elem_of_cons in Hin as [Heq|Hin]; [|done].
    by destruct (Ht h).
  - apply elem_of_cons in Hin as [->|Hin]; [by left|].
    right. by apply (IH i).
Qed.

Lemma stalled_step w sys ev h :
  Stalled h ∈ inflight sys → Stalled h ∈ inflight (step w sys ev).
Proof.
  intros Hin. rewrite step_react.
  assert (Hl : ∀ h' m, Stalled h ∈ inflight (launch w h' m sys)).
  { intros h' m. unfold launch; simpl. apply elem_of_app. by left. }
  destruct ev as [v|v|file|url| |u| |i|i|h' docs|h' error| |file'];
    cbn [react].
  - destruct (mounted sys); [apply Hl|done].
  - destruct (mounted sys); [apply Hl|done].
  - destruct (mounted sys); [apply Hl|done].
  - apply Hl.
  - destruct (mounted sys); [apply Hl|done].
  - done.
  - destruct (_ && _); [apply Hl|done].
  - destruct (posts (ui sys) !! i) as [p|]; [|done].
    destruct (p !! js "id") as [[|postId|]|]; try done.
    destruct (_ && _); [apply Hl|done].
  - destruct (inflight sys !! i) as [[h0 n c k|h0]|] eqn:Hi; try done.
    destruct (settle w n c) as [r|]; [|done].
    unfold launch; simpl. apply elem_of_app. left.
    by apply (stalled_survives_delete _ i (Awaiting h0 n c k)).
  - destruct (listeners sys !! h') as [[q [| |]]|]; try done; apply Hl.
  - destruct (listeners sys !! h') as [[q [| |]]|]; try done;
      unfold launch; simpl; apply elem_of_app; by left.
  - by destruct (mounted sys).
  - apply Hl.
Qed.

Lemma elem_of_filter_nonempty {A} (f : A → bool) l x :
  x ∈ l → f x = true → List.filter f l ≠ [].
Proof.
  intros Hin Hf Hnil.
  assert (H : In x (List.filter f l))
    by (apply filter_In; split; [by apply list_elem_of_In|done]).
  by rewrite Hnil in H.
Qed.

(** X15. Once a submission has stalled (its upload completed but the
    download URL was refused), the view never accepts another submission:
    whatever happens afterwards, every submit request leaves the system as it
    was. *)
Theorem stalled_submission_blocks_the_form w u evs evs' :
  let sys := run_events w (mount w u) evs in
  Stalled CreatePost ∈ inflight sys →
  let sys' := run_events w sys evs' in
  step w sys' SubmitRequested = sys'.
Proof.
  intros sys Hin sys'.
  assert (Hin' : Stalled CreatePost ∈ inflight sys').
  { subst sys'. induction evs' as [|ev evs' IH] using rev_ind; [done|].
    rewrite run_events_snoc. by apply stalled_step. }
  subst sys' sys. rewrite <- run_events_app in *.
  destruct (submit_inv_run w u (evs ++ evs')) as (_ & _ & Hflag).
  rewrite step_react. simpl.
  destruct (mounted _) eqn:Hm; [|done].
  unfold submit_disabled. rewrite Hflag; [done|done|].
  by apply (elem_of_filter_nonempty _ _ (Stalled CreatePost)).
Qed.

Lemma stalled_submission_blocks_the_form_witness :
  let w := world_no_url unavailable in
  let sys := run_events w (mount w (Some alice)) stalling_session in
  inflight sys = [Stalled CreatePost]
  ∧ step w (run_events w sys [TitleInput (js "Again"); CoverCleared])
      SubmitRequested
    = run_events w sys [TitleInput (js "Again"); CoverCleared].
Proof.
  assert (H : inflight (run_events (world_no_url unavailable)
                          (mount (world_no_url unavailable) (Some alice))
                          stalling_session) = [Stalled CreatePost])
    by reflexivity.
  split; [exact H|].
  apply (stalled_submission_blocks_the_form (world_no_url unavailable)
           (Some alice) stalling_session [TitleInput (js "Again"); CoverCleared]).
  rewrite H. apply list_elem_of_here.
Defined.

(** *** Accepting a submission *)

Lemma submit_enabled_valid s :
  submit_disabled s = false → isSubmitting s = false ∧ valid_input s.
Proof.
  unfold submit_disabled, valid_input. intros H.
  destruct (isSubmitting s); [done|]. split; [done|].
  destruct (trim (title s)); [done|].
  destruct (content s) eqn:Hc; [done|]. simpl in H.
  apply bool_decide_eq_false_1 in H. done.
Qed.

(** X16. When the submit button is enabled and a user is signed in, a
    submit request is never swallowed: within the same step [isSubmitting]
    becomes true, [permissionError] is cleared, one submission is added to
    those in flight, and exactly one request goes out, the cover upload if
    the form holds a cover and the record creation otherwise. *)
Theorem enabled_submit_starts_a_submission w sys u :
  mounted sys = true →
  submit_disabled (ui sys) = false →
  user sys = Some u →
  let sys' := step w sys SubmitRequested in
  isSubmitting (ui sys') = true
  ∧ permissionError (ui sys') = None
  ∧ length (submissions sys') = S (length (submissions sys))
  ∧ requests (history sys') = requests (history sys) ++ [first_request w u sys].
Proof.
  intros Hm Hen Hu sys'. subst sys'.
  destruct (submit_enabled_valid _ Hen) as [_ Hv].
  rewrite step_react. simpl. rewrite Hm, Hen, Hu. simpl.
  unfold launch, submissions, requests, first_request, onSubmit, handleCreatePost.
  cbv zeta. rewrite Hm.
  pose proof (gate_open u _ Hv) as G. simpl in G.
  destruct (featuredImage (ui sys)) as [file|]; simpl; rewrite G; simpl;
    rewrite List.filter_app, !omap_app, length_app; simpl;
    rewrite ?app_nil_r; (repeat split; try done; lia).
Qed.

Lemma enabled_submit_starts_a_submission_witness :
  let sys := run_events world_ok (mount world_ok (Some alice))
               (take 2 submitting_session) in
  let sys' := step world_ok sys SubmitRequested in
  isSubmitting (ui sys') = true
  ∧ requests (history sys')
    = requests (history sys) ++ [first_request world_ok alice sys].
Proof.
  pose proof (enabled_submit_starts_a_submission world_ok
                (run_events world_ok (mount world_ok (Some alice))
                   (take 2 submitting_session))
                alice eq_refl eq_refl eq_refl) as (H1 & _ & _ & H4).
  split; [exact H1|exact H4].
Defined.

(** *** Deleting from the list *)

(** X17. A click on the delete button of a post shown in the list, for a
    post whose [id] is a string as [interface Post] declares, issues one
    [deleteDoc], for that post's id, exactly when the view is mounted, the
    button is offered for that post ([user?.uid === post.authorId]) and the
    user confirms; otherwise it issues nothing. In no case does it change the
    posts shown. *)
Theorem delete_click_requests w sys i p postId :
  posts (ui sys) !! i = Some p →
  p !! js "id" = Some (VString postId) →
  let sys' := step w sys (DeleteClicked i) in
  posts (ui sys') = posts (ui sys)
  ∧ requests (history sys')
    = requests (history sys)
      ++ (if mounted sys && delete_offered (user sys) p
             && reply w (clock sys) (WindowConfirm CONFIRM_DELETE)
          then [DeleteDoc (js "posts") postId]
          else []).
Proof.
  intros Hp Hid sys'. subst sys'. rewrite step_react. simpl. unfold requests.
  rewrite Hp, Hid.
  destruct (mounted sys) eqn:Hm; simpl; [|by rewrite app_nil_r].
  destruct (delete_offered (user sys) p); simpl; [|by rewrite app_nil_r].
  unfold launch, handleDeletePost, CONFIRM_DELETE. simpl. rewrite Hm.
  destruct (reply w (clock sys) _); simpl; by rewrite omap_app.
Qed.

Lemma delete_click_requests_witness :
  let sys := run_events world_ok (mount world_ok (Some alice))
               [SnapshotArrives 0 sample_feed] in
  let sys' := step world_ok sys (DeleteClicked 0) in
  toPost (doc "c" VNull) !! js "id" = Some (VString (js "c"))
  ∧ posts (ui sys') = posts (ui sys)
  ∧ requests (history sys')
    = requests (history sys) ++ [DeleteDoc (js "posts") (js "c")].
Proof.
  assert (Hid : toPost (doc "c" VNull) !! js "id" = Some (VString (js "c")))
    by reflexivity.
  split; [exact Hid|].
  exact (delete_click_requests world_ok
           (run_events world_ok (mount world_ok (Some alice))
              [SnapshotArrives 0 sample_feed])
           0 (toPost (doc "c" VNull)) (js "c") eq_refl Hid).
Defined.

(** *** Leaving the view *)

(** X18. Unmounting cancels nothing: the handlers in flight are the same
    after it, and the settlement of any of them adds to the history exactly
    what it would have added had the view stayed mounted. *)
Theorem unmount_cancels_nothing w sys i :
  let sys' := step w sys Unmount in
  inflight sys' = inflight sys
  ∧ issued sys' (step w sys' (Settles i)) = issued sys (step w sys (Settles i)).
Proof.
  intros sys'. subst sys'. rewrite !step_react.
  assert (Hsame : inflight (react w sys Unmount) = inflight sys
                  ∧ clock (react w sys Unmount) = clock sys
                  ∧ ui (react w sys Unmount) = ui sys).
  { simpl. by destruct (mounted sys). }
  destruct Hsame as (Hi & Hc & Hu). split; [done|].
  generalize dependent (react w sys Unmount). intros sys' Hi Hc Hu.
  unfold issued. cbn [react]. rewrite Hi.
  destruct (inflight sys !! i) as [[h n c k|h]|]; try by rewrite !drop_all.
  destruct (settle w n c) as [r|]; [|by rewrite !drop_all].
  unfold launch, drop_task; cbn [history clock ui].
  rewrite Hc, Hu, <- !app_assoc, !drop_app_length. done.
Qed.

(** *** The loading spinner *)

Lemma advance_keeps_loading w h m n s :
  actions_satisfy keeps_loading m →
  isInitialLoading (reached (advance w h m n s)) = isInitialLoading s.
Proof.
  revert n s. induction m as [a|e| |a k IH|q k IH|c k IH]; intros n s Hm;
    simpl in *; try done.
  - destruct Hm as [Ha Hk]. rewrite IH by done. by destruct a.
  - by rewrite IH.
Qed.

Lemma obs_within_loading_no_delivery l :
  Forall (obs_within keeps_loading) l → omap delivery_of l = [].
Proof.
  induction 1 as [|o l Ho _ IH]; [done|].
  destruct o as [a| | | | | ]; simpl in *; try done. by destruct a.
Qed.

Lemma loading_inv_launch w h m sys :
  actions_satisfy keeps_loading m →
  loading_inv sys → loading_inv (launch w h m sys).
Proof.
  intros Hm [Ht Hiff].
  destruct (advance_within keeps_loading w h m (clock sys) (ui sys) Hm) as [He Hw].
  split.
  - simpl. apply Forall_app; split; [done|].
    destruct (waiting _) as [t|]; simpl; [|done].
    constructor; [|done].
    destruct t as [h' n c k|h']; simpl in *; [destruct Hw as [-> Hw]|]; done.
  - simpl. intros Hmnt. rewrite Hmnt, advance_keeps_loading by done.
    unfold deliveries in *.
    rewrite omap_app, (obs_within_loading_no_delivery _ He), app_nil_r.
    by apply Hiff.
Qed.

Lemma handlers_keep_loading user s postId file :
  actions_satisfy keeps_loading (onSubmit user s)
  ∧ actions_satisfy keeps_loading (handleDeletePost postId)
  ∧ actions_satisfy keeps_loading (imageHandler_onchange user file).
Proof.
  split; [by apply actions_satisfy_handleCreatePost|].
  split; [by apply actions_satisfy_handleDeletePost|].
  by apply actions_satisfy_imageHandler.
Qed.

Lemma loading_inv_step w sys ev :
  feed_inv sys → loading_inv sys → loading_inv (step w sys ev).
Proof.
  intros Hfeed Hinv. rewrite step_react.
  destruct ev as [v|v|file|url| |u| |i|i|h docs|h error| |file'];
    cbn [react].
  - destruct (mounted sys); [by apply loading_inv_launch|done].
  - destruct (mounted sys); [by apply loading_inv_launch|done].
  - destruct (mounted sys); [by apply loading_inv_launch|done].
  - by apply loading_inv_launch.
  - destruct (mounted sys); [by apply loading_inv_launch|done].
  - done.
  - destruct (_ && _); [|done].
    apply loading_inv_launch; [|done].
    apply (handlers_keep_loading _ _ [] cover_png).
  - destruct (posts (ui sys) !! i) as [p|]; [|done].
    destruct (p !! js "id") as [[|postId|]|]; try done.
    destruct (_ && _); [|done].
    apply loading_inv_launch; [|done].
    apply (handlers_keep_loading None initial_state postId cover_png).
  - destruct (inflight sys !! i) as [[h n c k|h]|] eqn:Hi; try done.
    destruct (settle w n c) as [r|]; [|done].
    destruct Hinv as [Ht Hiff].
    pose proof (Forall_lookup_1 _ _ _ _ Ht Hi) as [_ Hk]. simpl in Hk.
    apply loading_inv_launch; [done|].
    split; [by apply Forall_delete|].
    simpl. unfold deliveries in *. by rewrite omap_app, app_nil_r.
  - destruct Hfeed as (_ & (st & Hl & Hmt & Hum) & _).
    destruct (listeners sys !! h) as [[q [| |]]|] eqn:Hh; try done.
    rewrite Hl in Hh. destruct h as [|h]; [|done]. injection Hh as <- ->.
    destruct Hinv as [Ht Hiff].
    split; [simpl; by rewrite app_nil_r|].
    simpl. intros Hmnt. rewrite Hmnt. simpl.
    unfold deliveries. rewrite omap_app. simpl.
    split; [done|]. intros [Hd _]. by destruct (omap delivery_of (history sys)).
  - destruct Hfeed as (_ & (st & Hl & Hmt & Hum) & _).
    destruct (listeners sys !! h) as [[q [| |]]|] eqn:Hh; try done.
    rewrite Hl in Hh. destruct h as [|h]; [|done]. injection Hh as <- ->.
    destruct Hinv as [Ht Hiff].
    split.
    { unfold launch, onError; simpl.
      destruct (is_permission_denied error); simpl; by rewrite app_nil_r. }
    unfold launch, fail_listener, onError; simpl. intros Hmnt. rewrite Hmnt, Hl.
    destruct (is_permission_denied error); simpl;
      (split; [done|by intros [_ [=]]]).
  - destruct (mounted sys); [|done]. destruct Hinv as [Ht _]. by split.
  - apply loading_inv_launch; [|done].
    apply (handlers_keep_loading (user sys) initial_state [] file').
Qed.

(** X19. While the view is mounted the loading spinner shows exactly as
    long as no snapshot was delivered and the feed listener still listens:
    the first snapshot or the first failure of the channel ends it, and
    nothing brings it back. *)
Theorem loading_ends_with_first_snapshot_or_error w u evs :
  let sys := run_events w (mount w u) evs in
  mounted sys = true →
  (isInitialLoading (ui sys) = true
   ↔ deliveries (history sys) = [] ∧ listeners sys = [(feedQuery, Listening)]).
Proof.
  intros sys. subst sys.
  assert (Hinv : loading_inv (run_events w (mount w u) evs)).
  { induction evs as [|ev evs IH] using rev_ind.
    - split; [by constructor|]. done.
    - rewrite run_events_snoc. apply loading_inv_step; [apply feed_inv_run|done]. }
  by destruct Hinv.
Qed.

Lemma loading_ends_with_first_snapshot_or_error_witness :
  let before := run_events world_ok (mount world_ok (Some alice))
                  [TitleInput (js "Sunset")] in
  let after := step world_ok before (ChannelFails 0 unavailable) in
  isInitialLoading (ui before) = true
  ∧ isInitialLoading (ui after) = false
  ∧ listeners after = [(feedQuery, Failed)].
Proof.
  pose proof (loading_ends_with_first_snapshot_or_error world_ok (Some alice)
                [TitleInput (js "Sunset")] eq_refl) as H1.
  pose proof (loading_ends_with_first_snapshot_or_error world_ok (Some alice)
                [TitleInput (js "Sunset"); ChannelFails 0 unavailable] eq_refl) as H2.
  split; [apply H1; by split|].
  split; [|reflexivity].
  destruct (isInitialLoading _) eqn:E in |- *; [|done].
  by destruct (proj1 H2 E) as [_ [=]].
Defined.

(** *** A delivery *)

(** X20. A snapshot pushed to the listening feed listener replaces the
    posts wholesale by the mapped result set, however many documents it
    holds, an empty set included; it ends the loading state, logs no error
    and leaves the composer's form and [permissionError] as they were. *)
Theorem snapshot_replaces_posts w u evs h q docs :
  let sys := run_events w (mount w u) evs in
  listeners sys !! h = Some (q, Listening) →
  let sys' := step w sys (SnapshotArrives h docs) in
  posts (ui sys') = toPost <$> docs
  ∧ isInitialLoading (ui sys') = false
  ∧ form_kept (ui sys) (ui sys')
  ∧ permissionError (ui sys') = permissionError (ui sys)
  ∧ errors_logged (history sys') = errors_logged (history sys).
Proof.
  intros sys Hh sys'. subst sys'.
  destruct (feed_inv_run w u evs) as (_ & (st & Hl & _ & Hum) & _).
  fold sys in Hl, Hum.
  assert (Hm : mounted sys = true).
  { destruct (mounted sys) eqn:Hm; [done|].
    rewrite Hl, (Hum eq_refl) in Hh. by destruct h as [|[|?]]. }
  rewrite step_react. cbn [react]. rewrite Hh.
  unfold launch, onNext, errors_logged; simpl. rewrite Hm.
  by rewrite omap_app, app_nil_r.
Qed.

Lemma snapshot_replaces_posts_witness :
  let sys := run_events world_ok (mount world_ok (Some alice))
               [SnapshotArrives 0 sample_feed] in
  let sys' := step world_ok sys (SnapshotArrives 0 []) in
  length (posts (ui sys)) = 3%nat ∧ posts (ui sys') = [].
Proof.
  split; [reflexivity|].
  pose proof (snapshot_replaces_posts world_ok (Some alice)
                [SnapshotArrives 0 sample_feed] 0 feedQuery [] eq_refl) as (H & _).
  exact H.
Defined.
